(** * ScheduleManager: a shallow embedding of the dispatch core

    The class [ScheduleManager] of Discord.RSS keeps a list of schedules, a
    registry of the runs that are in flight, three side tables keyed by
    schedule object (run counter, memory cache, header cache) and the handles
    of the interval timers it armed.  Every method is synchronous, so one
    method call or one delivered event is one step of a state machine. *)

From Stdlib Require Import ZArith.
From stdpp Require Import gmap strings list pretty.

Local Open Scope Z_scope.

(** ** The fragment of JavaScript the class relies on *)

Module JS.

(** The values a run counter or the configured bound can hold. *)
Inductive value : Type :=
| VUndefined
| VNumber (n : Z)
| VNaN.

#[global] Instance value_eq_dec : EqDecision value.
Proof. solve_decision. Defined.

(** [a === b]: numbers compare by value, [NaN] is equal to nothing. *)
Definition strict_eq (a b : value) : bool :=
  match a, b with
  | VUndefined, VUndefined => true
  | VNumber x, VNumber y => bool_decide (x = y)
  | _, _ => false
  end.

(** [v + 1]: [undefined + 1] and [NaN + 1] are [NaN]. *)
Definition add1 (v : value) : value :=
  match v with
  | VNumber n => VNumber (n + 1)
  | VUndefined | VNaN => VNaN
  end.

(** [l.indexOf(x)] on an array of object references. *)
Fixpoint indexOf_from (i : Z) (x : nat) (l : list nat) : Z :=
  match l with
  | [] => -1
  | y :: l' => if bool_decide (y = x) then i else indexOf_from (i + 1) x l'
  end.

Definition indexOf (l : list nat) (x : nat) : Z := indexOf_from 0 x l.

(** [l.splice(start, deleteCount)] with no inserted items: a negative
    [start] counts from the end, both bounds are clamped to the array. *)
Definition splice {A} (l : list A) (start deleteCount : Z) : list A :=
  let len := Z.of_nat (length l) in
  let actualStart :=
    if bool_decide (start < 0) then Z.max (len + start) 0 else Z.min start len in
  let actualDelete := Z.min (Z.max deleteCount 0) (len - actualStart) in
  take (Z.to_nat actualStart) l ++ drop (Z.to_nat (actualStart + actualDelete)) l.

End JS.

Import JS.

(** ** Data *)

(** Modelled from the spec: the Schedule record of [db/Schedule.js].  A
    schedule is a JavaScript object, so it is compared and used as a [Map]
    key by its identity [s_ref]; the other fields are the ones the data model
    lists (label, refresh interval in whole minutes, optional cap on
    parallel runs). *)
Record Schedule : Type := mkSchedule {
  s_ref : nat;
  name : string;
  refreshRateMinutes : Z;
  maxRunsOverride : option Z
}.

#[global] Instance Schedule_eq_dec : EqDecision Schedule.
Proof. solve_decision. Defined.

(** [a === b] on schedule objects. *)
Definition same_schedule (a b : Schedule) : bool :=
  bool_decide (s_ref a = s_ref b).

(** A cache object ([{}] and what runs store in it), property name to an
    opaque serialised value. *)
Abbreviation cache := (gmap string string).

(** Modelled from the spec: a ScheduleRun of [ScheduleRun.js], an opaque unit
    built from (schedule, runCount, memoryCollection, headers) that can be
    started and terminated and that emits [finish] and [pendingArticle].  The
    two cache fields hold references into the object heap ([None] is
    [undefined]); [r_onceFinish] and [r_onPendingArticle] say whether the
    manager's listeners are still attached. *)
Record ScheduleRun : Type := mkScheduleRun {
  r_schedule : Schedule;
  r_runCount : value;
  r_memoryCollection : option nat;
  r_headers : option nat;
  r_terminated : bool;
  r_onceFinish : bool;
  r_onPendingArticle : bool;
  r_running : bool
}.

(** An armed [setInterval]: its handle, its period in milliseconds and the
    schedule its callback [() => this.run(schedule)] closes over. *)
Record Interval : Type := mkInterval {
  i_id : nat;
  i_period_ms : Z;
  i_schedule : Schedule
}.

Record PendingArticle : Type := mkPendingArticle {
  a_feed_id : string;
  a_link : string
}.

Inductive LogEntry : Type :=
| LogWarn (msg : string)
| LogDebug (msg : string).

(** What the class reads from its surroundings: [Base.isMongoDatabase] and
    the value of [getConfig().advanced.parallelRuns]. *)
Record Env : Type := mkEnv {
  isMongoDatabase : bool;
  parallelRuns : value
}.

(** The manager ([this]) together with the objects it shares with its
    surroundings: the run objects, the cache objects and the intervals that
    are armed in the event loop.  References are indices into [runObjs] and
    [objects]; [emitted] is what the manager re-emitted as [pendingArticle]. *)
Record State : Type := mkState {
  log : list LogEntry;
  timers : list nat;
  debugFeedIDs : gset string;
  schedules : list Schedule;
  scheduleRuns : list nat;
  scheduleRunCounts : gmap nat value;
  memoryCollections : gmap nat nat;
  headers : gmap nat nat;
  emitted : list PendingArticle;
  runObjs : list ScheduleRun;
  objects : list cache;
  intervals : list Interval;
  nextTimer : nat
}.

(** The state the constructor leaves. *)
Definition init : State :=
  {| log := []; timers := []; debugFeedIDs := ∅; schedules := [];
     scheduleRuns := []; scheduleRunCounts := ∅; memoryCollections := ∅;
     headers := ∅; emitted := []; runObjs := []; objects := [];
     intervals := []; nextTimer := 0 |}.

(** Field updates: [set_x f m] is [m] with field [x] replaced by [f (x m)]. *)
Definition set_log (f : list LogEntry → list LogEntry) (m : State) : State :=
  {| log := f (log m); timers := timers m; debugFeedIDs := debugFeedIDs m;
  schedules := schedules m; scheduleRuns := scheduleRuns m;
  scheduleRunCounts := scheduleRunCounts m; memoryCollections :=
  memoryCollections m; headers := headers m; emitted := emitted m; runObjs
  := runObjs m; objects := objects m; intervals := intervals m; nextTimer :=
  nextTimer m |}.

Definition set_timers (f : list nat → list nat) (m : State) : State :=
  {| log := log m; timers := f (timers m); debugFeedIDs := debugFeedIDs m;
  schedules := schedules m; scheduleRuns := scheduleRuns m;
  scheduleRunCounts := scheduleRunCounts m; memoryCollections :=
  memoryCollections m; headers := headers m; emitted := emitted m; runObjs
  := runObjs m; objects := objects m; intervals := intervals m; nextTimer :=
  nextTimer m |}.

Definition set_debugFeedIDs (f : gset string → gset string) (m : State) : State :=
  {| log := log m; timers := timers m; debugFeedIDs := f (debugFeedIDs m);
  schedules := schedules m; scheduleRuns := scheduleRuns m;
  scheduleRunCounts := scheduleRunCounts m; memoryCollections :=
  memoryCollections m; headers := headers m; emitted := emitted m; runObjs
  := runObjs m; objects := objects m; intervals := intervals m; nextTimer :=
  nextTimer m |}.

Definition set_schedules (f : list Schedule → list Schedule) (m : State) : State :=
  {| log := log m; timers := timers m; debugFeedIDs := debugFeedIDs m;
  schedules := f (schedules m); scheduleRuns := scheduleRuns m;
  scheduleRunCounts := scheduleRunCounts m; memoryCollections :=
  memoryCollections m; headers := headers m; emitted := emitted m; runObjs
  := runObjs m; objects := objects m; intervals := intervals m; nextTimer :=
  nextTimer m |}.

Definition set_scheduleRuns (f : list nat → list nat) (m : State) : State :=
  {| log := log m; timers := timers m; debugFeedIDs := debugFeedIDs m;
  schedules := schedules m; scheduleRuns := f (scheduleRuns m);
  scheduleRunCounts := scheduleRunCounts m; memoryCollections :=
  memoryCollections m; headers := headers m; emitted := emitted m; runObjs
  := runObjs m; objects := objects m; intervals := intervals m; nextTimer :=
  nextTimer m |}.

Definition set_scheduleRunCounts (f : gmap nat value → gmap nat value) (m : State) : State :=
  {| log := log m; timers := timers m; debugFeedIDs := debugFeedIDs m;
  schedules := schedules m; scheduleRuns := scheduleRuns m;
  scheduleRunCounts := f (scheduleRunCounts m); memoryCollections :=
  memoryCollections m; headers := headers m; emitted := emitted m; runObjs
  := runObjs m; objects := objects m; intervals := intervals m; nextTimer :=
  nextTimer m |}.

Definition set_memoryCollections (f : gmap nat nat → gmap nat nat) (m : State) : State :=
  {| log := log m; timers := timers m; debugFeedIDs := debugFeedIDs m;
  schedules := schedules m; scheduleRuns := scheduleRuns m;
  scheduleRunCounts := scheduleRunCounts m; memoryCollections := f
  (memoryCollections m); headers := headers m; emitted := emitted m; runObjs
  := runObjs m; objects := objects m; intervals := intervals m; nextTimer :=
  nextTimer m |}.

Definition set_headers (f : gmap nat nat → gmap nat nat) (m : State) : State :=
  {| log := log m; timers := timers m; debugFeedIDs := debugFeedIDs m;
  schedules := schedules m; scheduleRuns := scheduleRuns m;
  scheduleRunCounts := scheduleRunCounts m; memoryCollections :=
  memoryCollections m; headers := f (headers m); emitted := emitted m;
  runObjs := runObjs m; objects := objects m; intervals := intervals m;
  nextTimer := nextTimer m |}.

Definition set_emitted (f : list PendingArticle → list PendingArticle) (m : State) : State :=
  {| log := log m; timers := timers m; debugFeedIDs := debugFeedIDs m;
  schedules := schedules m; scheduleRuns := scheduleRuns m;
  scheduleRunCounts := scheduleRunCounts m; memoryCollections :=
  memoryCollections m; headers := headers m; emitted := f (emitted m);
  runObjs := runObjs m; objects := objects m; intervals := intervals m;
  nextTimer := nextTimer m |}.

Definition set_runObjs (f : list ScheduleRun → list ScheduleRun) (m : State) : State :=
  {| log := log m; timers := timers m; debugFeedIDs := debugFeedIDs m;
  schedules := schedules m; scheduleRuns := scheduleRuns m;
  scheduleRunCounts := scheduleRunCounts m; memoryCollections :=
  memoryCollections m; headers := headers m; emitted := emitted m; runObjs
  := f (runObjs m); objects := objects m; intervals := intervals m;
  nextTimer := nextTimer m |}.

Definition set_objects (f : list cache → list cache) (m : State) : State :=
  {| log := log m; timers := timers m; debugFeedIDs := debugFeedIDs m;
  schedules := schedules m; scheduleRuns := scheduleRuns m;
  scheduleRunCounts := scheduleRunCounts m; memoryCollections :=
  memoryCollections m; headers := headers m; emitted := emitted m; runObjs
  := runObjs m; objects := f (objects m); intervals := intervals m;
  nextTimer := nextTimer m |}.

Definition set_intervals (f : list Interval → list Interval) (m : State) : State :=
  {| log := log m; timers := timers m; debugFeedIDs := debugFeedIDs m;
  schedules := schedules m; scheduleRuns := scheduleRuns m;
  scheduleRunCounts := scheduleRunCounts m; memoryCollections :=
  memoryCollections m; headers := headers m; emitted := emitted m; runObjs
  := runObjs m; objects := objects m; intervals := f (intervals m);
  nextTimer := nextTimer m |}.

Definition set_nextTimer (f : nat → nat) (m : State) : State :=
  {| log := log m; timers := timers m; debugFeedIDs := debugFeedIDs m;
  schedules := schedules m; scheduleRuns := scheduleRuns m;
  scheduleRunCounts := scheduleRunCounts m; memoryCollections :=
  memoryCollections m; headers := headers m; emitted := emitted m; runObjs
  := runObjs m; objects := objects m; intervals := intervals m; nextTimer :=
  f (nextTimer m) |}.

(** ** The methods of [ScheduleManager] *)

(** [{}]: a fresh empty object; its reference is the next free index. *)
Definition new_object (m : State) : nat * State :=
  (length (objects m), set_objects (λ os, os ++ [∅]) m).

(** [map.get(schedule)]; a missing key reads as [undefined]. *)
Definition counts_get (counts : gmap nat value) (s : Schedule) : value :=
  default VUndefined (counts !! s_ref s).

Definition addSchedule (e : Env) (s : Schedule) (m : State) : State :=
  let m := set_schedules (λ l, l ++ [s]) m in
  let m := set_scheduleRunCounts (λ c, <[s_ref s := VNumber 0]> c) m in
  let m :=
    if isMongoDatabase e then
      let '(o, m) := new_object m in
      set_memoryCollections (λ c, <[s_ref s := o]> c) m
    else m in
  let '(o, m) := new_object m in
  set_headers (λ c, <[s_ref s := o]> c) m.

Definition addSchedules (e : Env) (l : list Schedule) (m : State) : State :=
  foldl (λ m s, addSchedule e s m) m l.

(** [r.schedule === schedule] for the run object behind reference [r]. *)
Definition run_of (m : State) (s : Schedule) (r : nat) : bool :=
  match runObjs m !! r with
  | Some o => same_schedule (r_schedule o) s
  | None => false
  end.

Definition getRuns (m : State) (s : Schedule) : list nat :=
  List.filter (run_of m s) (scheduleRuns m).

(** The effect of [run.terminate()] and of [run.removeAllListeners()] on a
    run object. *)
Definition terminate (o : ScheduleRun) : ScheduleRun :=
  {| r_schedule := r_schedule o; r_runCount := r_runCount o;
     r_memoryCollection := r_memoryCollection o; r_headers := r_headers o;
     r_terminated := true; r_onceFinish := r_onceFinish o;
     r_onPendingArticle := r_onPendingArticle o; r_running := false |}.

Definition removeAllListeners (o : ScheduleRun) : ScheduleRun :=
  {| r_schedule := r_schedule o; r_runCount := r_runCount o;
     r_memoryCollection := r_memoryCollection o; r_headers := r_headers o;
     r_terminated := r_terminated o; r_onceFinish := false;
     r_onPendingArticle := false; r_running := r_running o |}.

Definition terminateRun (r : nat) (m : State) : State :=
  let m := set_runObjs (alter terminate r) m in
  let m := set_runObjs (alter removeAllListeners r) m in
  set_scheduleRuns (λ l, splice l (indexOf l r) 1) m.

Definition terminateScheduleRuns (s : Schedule) (m : State) : State :=
  let runs := getRuns m s in
  foldl (λ m r, terminateRun r m) m runs.

Definition atMaxRuns (e : Env) (m : State) (s : Schedule) : bool :=
  let maxRuns := parallelRuns e in
  let runs := getRuns m s in
  strict_eq (VNumber (Z.of_nat (length runs))) maxRuns.

Definition incrementRunCount (s : Schedule) (m : State) : State :=
  set_scheduleRunCounts (λ counts, <[s_ref s := add1 (counts_get counts s)]> counts) m.

Definition unfinished_warning (runCount : nat) : string :=
  "Previous schedule runs were not finished (" +:+ pretty runCount +:+
  " run(s)). Terminating all runs. If repeatedly seeing this message, consider increasing your refresh rate.".

(** [new ScheduleRun(schedule, runCount, memoryCollection, headers)]: a run
    object that is neither started nor listened to. *)
Definition new_ScheduleRun (s : Schedule) (runCount : value)
    (memoryCollection hdrs : option nat) (m : State) : nat * State :=
  (length (runObjs m),
   set_runObjs (λ os, os ++ [
     {| r_schedule := s; r_runCount := runCount;
        r_memoryCollection := memoryCollection; r_headers := hdrs;
        r_terminated := false; r_onceFinish := false;
        r_onPendingArticle := false; r_running := false |}]) m).

Definition once_finish (o : ScheduleRun) : ScheduleRun :=
  {| r_schedule := r_schedule o; r_runCount := r_runCount o;
     r_memoryCollection := r_memoryCollection o; r_headers := r_headers o;
     r_terminated := r_terminated o; r_onceFinish := true;
     r_onPendingArticle := r_onPendingArticle o; r_running := r_running o |}.

Definition on_pendingArticle (o : ScheduleRun) : ScheduleRun :=
  {| r_schedule := r_schedule o; r_runCount := r_runCount o;
     r_memoryCollection := r_memoryCollection o; r_headers := r_headers o;
     r_terminated := r_terminated o; r_onceFinish := r_onceFinish o;
     r_onPendingArticle := true; r_running := r_running o |}.

(** [run.run(debugFeedIDs)]: the run starts its asynchronous work. *)
Definition start (o : ScheduleRun) : ScheduleRun :=
  {| r_schedule := r_schedule o; r_runCount := r_runCount o;
     r_memoryCollection := r_memoryCollection o; r_headers := r_headers o;
     r_terminated := r_terminated o; r_onceFinish := r_onceFinish o;
     r_onPendingArticle := r_onPendingArticle o; r_running := true |}.

Definition run (e : Env) (s : Schedule) (m : State) : State :=
  let m :=
    if atMaxRuns e m s then
      let runCount := length (getRuns m s) in
      let m := set_log (λ l, l ++ [LogWarn (unfinished_warning runCount)]) m in
      terminateScheduleRuns s m
    else m in
  let runCount := counts_get (scheduleRunCounts m) s in
  let memoryCollection := memoryCollections m !! s_ref s in
  let hdrs := headers m !! s_ref s in
  let '(r, m) := new_ScheduleRun s runCount memoryCollection hdrs m in
  let m := set_runObjs (alter once_finish r) m in
  let m := set_runObjs (alter on_pendingArticle r) m in
  let m := set_scheduleRuns (λ l, l ++ [r]) m in
  set_runObjs (alter start r) m.

(** The delay Node arms a timer with: a delay [after] below 1 ms or above
    [TIMEOUT_MAX] = 2^31 - 1 ms is replaced by 1 ms. *)
Definition TIMEOUT_MAX : Z := 2147483647.

Definition timer_delay (after : Z) : Z :=
  if bool_decide (1 ≤ after ∧ after ≤ TIMEOUT_MAX) then after else 1.

(** [clearInterval(timer)] and [setInterval(() => this.run(schedule), ms)]. *)
Definition clearInterval (t : nat) (m : State) : State :=
  set_intervals (List.filter (λ i, negb (bool_decide (i_id i = t)))) m.

Definition setInterval (s : Schedule) (ms : Z) (m : State) : nat * State :=
  let t := nextTimer m in
  (t, set_nextTimer S (set_intervals (λ l, l ++ [mkInterval t (timer_delay ms) s]) m)).

Definition clearTimers (m : State) : State :=
  if bool_decide (length (timers m) = 0%nat) then m
  else
    let m := foldl (λ m t, clearInterval t m) m (timers m) in
    set_timers (λ _, []) m.

Definition beginTimers (e : Env) (m : State) : State :=
  let m := clearTimers m in
  foldl (λ m s,
           let m := run e s m in
           let '(t, m) := setInterval s (refreshRateMinutes s * 60000) m in
           set_timers (λ l, l ++ [t]) m)
        m (schedules m).

Definition addDebugFeedID (feedID : string) (m : State) : State :=
  set_debugFeedIDs (λ d, d ∪ {[feedID]}) m.

Definition removeDebugFeedID (feedID : string) (m : State) : State :=
  set_debugFeedIDs (λ d, d ∖ {[feedID]}) m.

Definition isDebugging (m : State) (feedID : string) : bool :=
  bool_decide (feedID ∈ debugFeedIDs m).

Definition _onPendingArticle (a : PendingArticle) (m : State) : State :=
  let m :=
    if bool_decide (a_feed_id a ∈ debugFeedIDs m) then
      set_log (λ l, l ++ [LogDebug (a_feed_id a +:+ " ScheduleManager queueing article "
                                     +:+ a_link a +:+ " to send")]) m
    else m in
  set_emitted (λ l, l ++ [a]) m.

(** ** The state machine

    A step is a call of a public method or an event delivered by the event
    loop: an armed interval fires, a run emits [finish] or [pendingArticle],
    a run writes into one of the cache objects it was given. *)

Inductive Op : Type :=
| AddSchedule (s : Schedule)
| AddSchedules (l : list Schedule)
| TerminateRun (r : nat)
| TerminateScheduleRuns (s : Schedule)
| Run (s : Schedule)
| ClearTimers
| BeginTimers
| AddDebugFeedID (feedID : string)
| RemoveDebugFeedID (feedID : string)
| TimerFires (t : nat)
| EmitFinish (r : nat)
| EmitPendingArticle (r : nat) (a : PendingArticle)
| WriteMemory (r : nat) (k v : string)
| WriteHeaders (r : nat) (k v : string).

(** A once-listener is detached before its body runs. *)
Definition off_finish (o : ScheduleRun) : ScheduleRun :=
  {| r_schedule := r_schedule o; r_runCount := r_runCount o;
     r_memoryCollection := r_memoryCollection o; r_headers := r_headers o;
     r_terminated := r_terminated o; r_onceFinish := false;
     r_onPendingArticle := r_onPendingArticle o; r_running := r_running o |}.

(** The run behind [r] emits [finish]: the listener installed by
    [run.once('finish', ...)] runs if it is still attached, with the
    schedule its closure captured. *)
Definition emit_finish (r : nat) (m : State) : State :=
  match runObjs m !! r with
  | Some o =>
      if r_onceFinish o then
        let m := set_runObjs (alter off_finish r) m in
        let m := terminateRun r m in
        incrementRunCount (r_schedule o) m
      else m
  | None => m
  end.

Definition emit_pendingArticle (r : nat) (a : PendingArticle) (m : State) : State :=
  match runObjs m !! r with
  | Some o => if r_onPendingArticle o then _onPendingArticle a m else m
  | None => m
  end.

Definition timer_fires (e : Env) (t : nat) (m : State) : State :=
  match List.find (λ i, bool_decide (i_id i = t)) (intervals m) with
  | Some i => run e (i_schedule i) m
  | None => m
  end.

(** A run stores [v] under [k] in a cache object it holds a reference to. *)
Definition write_object (ref : option nat) (k v : string) (m : State) : State :=
  match ref with
  | Some o => set_objects (alter (λ c : cache, <[k := v]> c) o) m
  | None => m
  end.

Definition write_memory (r : nat) (k v : string) (m : State) : State :=
  match runObjs m !! r with
  | Some o => write_object (r_memoryCollection o) k v m
  | None => m
  end.

Definition write_headers (r : nat) (k v : string) (m : State) : State :=
  match runObjs m !! r with
  | Some o => write_object (r_headers o) k v m
  | None => m
  end.

Definition step (e : Env) (m : State) (o : Op) : State :=
  match o with
  | AddSchedule s => addSchedule e s m
  | AddSchedules l => addSchedules e l m
  | TerminateRun r => terminateRun r m
  | TerminateScheduleRuns s => terminateScheduleRuns s m
  | Run s => run e s m
  | ClearTimers => clearTimers m
  | BeginTimers => beginTimers e m
  | AddDebugFeedID f => addDebugFeedID f m
  | RemoveDebugFeedID f => removeDebugFeedID f m
  | TimerFires t => timer_fires e t m
  | EmitFinish r => emit_finish r m
  | EmitPendingArticle r a => emit_pendingArticle r a m
  | WriteMemory r k v => write_memory r k v m
  | WriteHeaders r k v => write_headers r k v m
  end.

Definition exec (e : Env) (ops : list Op) (m : State) : State :=
  foldl (step e) m ops.

(** The states the manager can be in: those a finite sequence of steps
    reaches from the constructor's state. *)
Definition reachable (e : Env) (m : State) : Prop :=
  ∃ ops, m = exec e ops init.

(** ** Vocabulary of the statements *)

(** *** What a method leaves alone *)

(** [frame m m']: [m'] has the timers, debug set, schedule list, side
    tables, re-emitted articles, cache objects and armed intervals of [m]. *)
Record frame (m m' : State) : Prop := mkFrame {
  fr_timers : timers m' = timers m;
  fr_debugFeedIDs : debugFeedIDs m' = debugFeedIDs m;
  fr_schedules : schedules m' = schedules m;
  fr_scheduleRunCounts : scheduleRunCounts m' = scheduleRunCounts m;
  fr_memoryCollections : memoryCollections m' = memoryCollections m;
  fr_headers : headers m' = headers m;
  fr_emitted : emitted m' = emitted m;
  fr_objects : objects m' = objects m;
  fr_intervals : intervals m' = intervals m;
  fr_nextTimer : nextTimer m' = nextTimer m
}.

(** [tables m m']: the schedule list, the three side tables, the cache
    objects, the debug set and the re-emitted articles are those of [m]. *)
Record tables (m m' : State) : Prop := mkTables {
  tb_schedules : schedules m' = schedules m;
  tb_scheduleRunCounts : scheduleRunCounts m' = scheduleRunCounts m;
  tb_memoryCollections : memoryCollections m' = memoryCollections m;
  tb_headers : headers m' = headers m;
  tb_objects : objects m' = objects m;
  tb_debugFeedIDs : debugFeedIDs m' = debugFeedIDs m;
  tb_emitted : emitted m' = emitted m
}.

(** The constructor arguments of a run object: no method changes them. *)
Definition same_args (o o' : ScheduleRun) : Prop :=
  r_schedule o' = r_schedule o ∧ r_runCount o' = r_runCount o ∧
  r_memoryCollection o' = r_memoryCollection o ∧ r_headers o' = r_headers o.

(** [runs_grow m m']: every run object of [m] is still there in [m'], at
    the same reference and with the same constructor arguments. *)
Definition runs_grow (m m' : State) : Prop :=
  ∀ r o, runObjs m !! r = Some o →
         ∃ o', runObjs m' !! r = Some o' ∧ same_args o o'.

(** *** The parts of [terminateScheduleRuns], [run] and [beginTimers] *)

Definition terminateRuns (rs : list nat) (m : State) : State :=
  foldl (λ m r, terminateRun r m) m rs.

(** The first half of [run]: the remediation taken at capacity. *)
Definition remediate (e : Env) (s : Schedule) (m : State) : State :=
  if atMaxRuns e m s then
    terminateScheduleRuns s
      (set_log (λ l, l ++ [LogWarn (unfinished_warning (length (getRuns m s)))]) m)
  else m.

(** The run object [run] leaves behind for the run it starts. *)
Definition dispatched (s : Schedule) (m : State) : ScheduleRun :=
  {| r_schedule := s; r_runCount := counts_get (scheduleRunCounts m) s;
     r_memoryCollection := memoryCollections m !! s_ref s;
     r_headers := headers m !! s_ref s;
     r_terminated := false; r_onceFinish := true;
     r_onPendingArticle := true; r_running := true |}.

(** One round of the loop of [beginTimers]: dispatch, arm, remember. *)
Definition arm (e : Env) (m : State) (s : Schedule) : State :=
  let m := run e s m in
  let '(t, m) := setInterval s (refreshRateMinutes s * 60000) m in
  set_timers (λ l, l ++ [t]) m.


(** *** The invariant of the reachable states *)

(** The registry holds no run twice and only runs that exist; the handles in
    [timers] are exactly the armed intervals; the side tables point at
    allocated cache objects; without a Mongo backend no memory cache was
    ever allocated. *)
Record wf (e : Env) (m : State) : Prop := mkWf {
  wf_nodup : NoDup (scheduleRuns m);
  wf_registered : ∀ r, r ∈ scheduleRuns m → (r < length (runObjs m))%nat;
  wf_timers : timers m = map i_id (intervals m);
  wf_headers : ∀ k o, headers m !! k = Some o → (o < length (objects m))%nat;
  wf_memory : ∀ k o, memoryCollections m !! k = Some o → (o < length (objects m))%nat;
  wf_nomongo : isMongoDatabase e = false → memoryCollections m = ∅
}.

(** *** Traces *)

(** [adds s o]: the step [o] registers the schedule [s]. *)
Definition adds (s : Schedule) (o : Op) : bool :=
  match o with
  | AddSchedule s' => same_schedule s' s
  | AddSchedules l => existsb (λ s', same_schedule s' s) l
  | _ => false
  end.

(** [finishes s m o]: the step [o] is a [finish] emitted by a run of [s]
    whose once-listener is still attached in [m]. *)
Definition finishes (s : Schedule) (m : State) (o : Op) : bool :=
  match o with
  | EmitFinish r =>
      match runObjs m !! r with
      | Some ob => r_onceFinish ob && same_schedule (r_schedule ob) s
      | None => false
      end
  | _ => false
  end.

(** The number of normal completions of runs of [s] along a trace. *)
Fixpoint completions (e : Env) (s : Schedule) (m : State) (ops : list Op) : nat :=
  match ops with
  | [] => 0
  | o :: ops' =>
      ((if finishes s m o then 1 else 0) + completions e s (step e m o) ops')%nat
  end.

(** *** The capacity rule in the words of the spec *)

Inductive ConfigError : Type := ConfigUnavailableError.

(** Following the spec's words: [configuredMax] resolves the schedule-level
    override, else the global configuration value, and fails when neither is
    there; [isAtCapacity] compares the number of runs with it. *)
Definition configuredMax_spec (e : Env) (s : Schedule) : ConfigError + Z :=
  match maxRunsOverride s with
  | Some n => inr n
  | None =>
      match parallelRuns e with
      | VNumber n => inr n
      | _ => inl ConfigUnavailableError
      end
  end.

Definition isAtCapacity_spec (e : Env) (m : State) (s : Schedule) : ConfigError + bool :=
  match configuredMax_spec e s with
  | inr n => inr (bool_decide (Z.of_nat (length (getRuns m s)) = n))
  | inl err => inl err
  end.

(** *** Further invariants *)

(** [live m]: every registered run exists, has been started, is not
    terminated and still carries both listeners of the manager. *)
Definition live (m : State) : Prop :=
  ∀ r, r ∈ scheduleRuns m →
       ∃ o, runObjs m !! r = Some o ∧ r_terminated o = false ∧
            r_onceFinish o = true ∧ r_onPendingArticle o = true ∧
            r_running o = true.

(** [isolated m]: no cache object is shared, neither between two schedules
    nor between the header table and the memory table. *)
Definition isolated (m : State) : Prop :=
  (∀ k1 k2 o, headers m !! k1 = Some o → headers m !! k2 = Some o → k1 = k2) ∧
  (∀ k1 k2 o, memoryCollections m !! k1 = Some o →
              memoryCollections m !! k2 = Some o → k1 = k2) ∧
  (∀ k1 k2 o, headers m !! k1 = Some o → memoryCollections m !! k2 ≠ Some o).

(** A counter value that is not a number: [undefined] or [NaN]. *)
Definition not_a_number (v : value) : Prop := v = VUndefined ∨ v = VNaN.

(** The line [_onPendingArticle] logs for an article of a traced feed. *)
Definition queueing_line (a : PendingArticle) : LogEntry :=
  LogDebug (a_feed_id a +:+ " ScheduleManager queueing article "
            +:+ a_link a +:+ " to send").

(** *** Sample data *)

Definition feeds : Schedule := mkSchedule 0 "default" 10 None.

Definition vip : Schedule := mkSchedule 1 "vip" 1 (Some 1).


Definition mongo1 : Env := mkEnv true (VNumber 1).

Definition mongo2 : Env := mkEnv true (VNumber 2).

Definition files1 : Env := mkEnv false (VNumber 1).

Definition unbounded : Env := mkEnv true VUndefined.

(** ** Arrays: [indexOf] and [splice] *)

Section arrays.

Lemma indexOf_from_notin (l : list nat) (x : nat) (i : Z) :
  x ∉ l → indexOf_from i x l = -1.
Proof.
  revert i. induction l as [|y l IH]; intros i Hx; simpl; [done|].
  apply not_elem_of_cons in Hx as [Hne Hx].
  rewrite bool_decide_eq_false_2 by congruence. by apply IH.
Qed.

Lemma indexOf_from_split (l1 l2 : list nat) (x : nat) (i : Z) :
  x ∉ l1 → indexOf_from i x (l1 ++ x :: l2) = i + Z.of_nat (length l1).
Proof.
  revert i. induction l1 as [|y l1 IH]; intros i Hx; simpl.
  - rewrite bool_decide_eq_true_2 by done. lia.
  - apply not_elem_of_cons in Hx as [Hne Hx].
    rewrite bool_decide_eq_false_2 by congruence. rewrite IH by done. lia.
Qed.

Lemma indexOf_notin (l : list nat) (x : nat) : x ∉ l → indexOf l x = -1.
Proof. apply indexOf_from_notin. Qed.

Lemma indexOf_split (l1 l2 : list nat) (x : nat) :
  x ∉ l1 → indexOf (l1 ++ x :: l2) x = Z.of_nat (length l1).
Proof. intros Hx. unfold indexOf. by rewrite indexOf_from_split. Qed.

Lemma splice_one_at {A} (l1 l2 : list A) (x : A) :
  splice (l1 ++ x :: l2) (Z.of_nat (length l1)) 1 = l1 ++ l2.
Proof.
  unfold splice. rewrite length_app. simpl.
  rewrite bool_decide_eq_false_2 by lia.
  match goal with
  | |- take ?a _ ++ drop ?b _ = _ =>
      replace a with (length l1) by lia; replace b with (S (length l1)) by lia
  end.
  rewrite take_app_length.
  rewrite drop_app_ge by lia.
  by replace (S (length l1) - length l1)%nat with 1%nat by lia.
Qed.

(** [splice(-1, 1)] drops the last element, and nothing from [[]]. *)
Lemma splice_minus_one_snoc {A} (l : list A) (x : A) :
  splice (l ++ [x]) (-1) 1 = l.
Proof.
  unfold splice. rewrite length_app. change (length [x]) with 1%nat.
  rewrite bool_decide_eq_true_2 by lia.
  match goal with
  | |- take ?a _ ++ drop ?b _ = _ =>
      replace a with (length l) by lia; replace b with (S (length l)) by lia
  end.
  rewrite take_app_length.
  rewrite drop_ge; [by rewrite app_nil_r|]. rewrite length_app. simpl. lia.
Qed.

Lemma splice_minus_one_nil {A} : splice (@nil A) (-1) 1 = [].
Proof. reflexivity. Qed.

(** Without duplicates, keeping everything but [x] is deleting the one
    occurrence of [x]. *)
Lemma filter_ne_split (l1 l2 : list nat) (x : nat) :
  x ∉ l1 → x ∉ l2 →
  List.filter (λ y, negb (bool_decide (y = x))) (l1 ++ x :: l2) = l1 ++ l2.
Proof.
  assert (Hid : ∀ l : list nat, x ∉ l →
            List.filter (λ y, negb (bool_decide (y = x))) l = l).
  { induction l as [|y l IH]; intros Hx; simpl; [done|].
    apply not_elem_of_cons in Hx as [Hne Hx].
    rewrite bool_decide_eq_false_2 by congruence. simpl. by rewrite IH. }
  intros H1 H2. rewrite List.filter_app. simpl.
  rewrite bool_decide_eq_true_2 by done. simpl. by rewrite !Hid.
Qed.

(** [l.splice(l.indexOf(x), 1)] on an array without duplicates that
    holds [x]. *)
Lemma splice_indexOf_in (l : list nat) (x : nat) :
  NoDup l → x ∈ l →
  splice l (indexOf l x) 1 = List.filter (λ y, negb (bool_decide (y = x))) l.
Proof.
  intros Hnd Hx. apply list_elem_of_split in Hx as (l1 & l2 & ->).
  apply NoDup_app in Hnd as (_ & Hdisj & Hnd2).
  apply NoDup_cons in Hnd2 as [Hx2 _].
  assert (x ∉ l1) as Hx1 by (intros Hin; apply (Hdisj x Hin); left).
  rewrite indexOf_split, splice_one_at, filter_ne_split; done.
Qed.

Lemma NoDup_bfilter {A} (f : A → bool) (l : list A) :
  NoDup l → NoDup (List.filter f l).
Proof. rewrite !NoDup_ListNoDup. apply List.NoDup_filter. Qed.

End arrays.

(** ** What the run-handling methods leave alone *)

Lemma frame_refl m : frame m m.
Proof. by split. Qed.

Lemma frame_trans m1 m2 m3 : frame m1 m2 → frame m2 m3 → frame m1 m3.
Proof. intros [] []. split; congruence. Qed.

Lemma runs_grow_refl m : runs_grow m m.
Proof. intros r o Hr. exists o. by repeat split. Qed.

Lemma runs_grow_trans m1 m2 m3 :
  runs_grow m1 m2 → runs_grow m2 m3 → runs_grow m1 m3.
Proof.
  intros H12 H23 r o Hr.
  destruct (H12 r o Hr) as (o2 & Hr2 & ? & ? & ? & ?).
  destruct (H23 r o2 Hr2) as (o3 & Hr3 & ? & ? & ? & ?).
  exists o3. unfold same_args. repeat split; congruence.
Qed.

Lemma runs_grow_alter (f : ScheduleRun → ScheduleRun) r m :
  (∀ o, same_args o (f o)) → runs_grow m (set_runObjs (alter f r) m).
Proof.
  intros Hf x o Hx. simpl. destruct (decide (r = x)) as [->|Hne].
  - rewrite list_lookup_alter_eq, Hx. simpl. eauto.
  - rewrite list_lookup_alter_ne by done. exists o. by repeat split.
Qed.

Lemma runs_grow_length m m' :
  runs_grow m m' → (length (runObjs m) ≤ length (runObjs m'))%nat.
Proof.
  intros H. destruct (runObjs m) as [|o os] eqn:E using rev_ind; [simpl; lia|].
  clear IHos. destruct (H (length os) o) as (o' & Ho' & _).
  { rewrite E. by rewrite lookup_app_r, Nat.sub_diag by lia. }
  apply lookup_lt_Some in Ho'. rewrite length_app. simpl. lia.
Qed.

Lemma run_of_grow m m' s r :
  runs_grow m m' → (r < length (runObjs m))%nat → run_of m' s r = run_of m s r.
Proof.
  intros H Hr. unfold run_of.
  destruct (lookup_lt_is_Some_2 _ _ Hr) as [o Ho].
  destruct (H r o Ho) as (o' & Ho' & Hs & _). by rewrite Ho, Ho', Hs.
Qed.

(** *** [terminateRun] *)

Lemma terminateRun_frame r m : frame m (terminateRun r m).
Proof. by split. Qed.

Lemma terminateRun_log r m : log (terminateRun r m) = log m.
Proof. reflexivity. Qed.

Lemma terminateRun_runObjs r m :
  runObjs (terminateRun r m) = alter (removeAllListeners ∘ terminate) r (runObjs m).
Proof. unfold terminateRun. simpl. by rewrite list_alter_alter_eq. Qed.

Lemma terminateRun_grow r m : runs_grow m (terminateRun r m).
Proof.
  intros x o Hx. rewrite terminateRun_runObjs.
  destruct (decide (r = x)) as [->|Hne].
  - rewrite list_lookup_alter_eq, Hx. simpl. eexists. split; [done|]. by repeat split.
  - rewrite list_lookup_alter_ne by done. exists o. by repeat split.
Qed.

Lemma terminateRun_scheduleRuns r m :
  scheduleRuns (terminateRun r m)
  = splice (scheduleRuns m) (indexOf (scheduleRuns m) r) 1.
Proof. reflexivity. Qed.

Lemma terminateRun_registered r m :
  NoDup (scheduleRuns m) → r ∈ scheduleRuns m →
  scheduleRuns (terminateRun r m)
  = List.filter (λ y, negb (bool_decide (y = r))) (scheduleRuns m).
Proof. intros. rewrite terminateRun_scheduleRuns. by apply splice_indexOf_in. Qed.

(** Whatever [r] is, the registry after [terminateRun r] is a part of the
    registry before. *)
Lemma splice_sublist {A} (l : list A) (i n : Z) : sublist (splice l i n) l.
Proof.
  unfold splice. cbv zeta.
  match goal with
  | |- sublist (take ?a _ ++ drop ?b _) _ =>
      assert (a ≤ b)%nat as Hle by (case_bool_decide; lia);
      generalize dependent b; generalize a
  end.
  intros a b Hle. rewrite <- (take_drop a l) at 3.
  apply sublist_app; [done|].
  replace b with (a + (b - a))%nat by lia. rewrite <- drop_drop.
  apply sublist_drop.
Qed.

Lemma terminateRun_sublist r m :
  sublist (scheduleRuns (terminateRun r m)) (scheduleRuns m).
Proof. rewrite terminateRun_scheduleRuns. apply splice_sublist. Qed.

(** *** [terminateScheduleRuns] *)

Lemma filter_out_cons (r : nat) (rs l : list nat) :
  List.filter (λ y, negb (bool_decide (y ∈ rs)))
              (List.filter (λ y, negb (bool_decide (y = r))) l)
  = List.filter (λ y, negb (bool_decide (y ∈ r :: rs))) l.
Proof.
  induction l as [|y l IH]; simpl; [done|].
  destruct (decide (y = r)) as [->|Hne].
  - rewrite bool_decide_eq_true_2 by done. simpl.
    rewrite (bool_decide_eq_true_2 (r ∈ r :: rs)) by left. simpl. apply IH.
  - rewrite (bool_decide_eq_false_2 (y = r)) by done. simpl.
    rewrite IH. destruct (decide (y ∈ rs)) as [Hin|Hout].
    + rewrite (bool_decide_eq_true_2 (y ∈ rs)) by done.
      by rewrite (bool_decide_eq_true_2 (y ∈ r :: rs)) by (by right).
    + rewrite (bool_decide_eq_false_2 (y ∈ rs)) by done.
      rewrite (bool_decide_eq_false_2 (y ∈ r :: rs)); [done|].
      intros [?|?]%elem_of_cons; done.
Qed.

Lemma filter_out_nil (l : list nat) :
  List.filter (λ y, negb (bool_decide (y ∈ @nil nat))) l = l.
Proof.
  induction l as [|y l IHl]; [done|].
  cbn [List.filter]. rewrite bool_decide_eq_false_2 by apply not_elem_of_nil.
  cbn [negb]. by rewrite IHl.
Qed.

Lemma terminateRuns_frame rs m :
  frame m (terminateRuns rs m) ∧ log (terminateRuns rs m) = log m ∧
  runs_grow m (terminateRuns rs m) ∧
  length (runObjs (terminateRuns rs m)) = length (runObjs m) ∧
  sublist (scheduleRuns (terminateRuns rs m)) (scheduleRuns m).
Proof.
  revert m. induction rs as [|r rs IH]; intros m.
  - simpl. split_and!; [apply frame_refl|done|apply runs_grow_refl|done|done].
  - change (terminateRuns (r :: rs) m) with (terminateRuns rs (terminateRun r m)).
    destruct (IH (terminateRun r m)) as (Hf & Hl & Hg & Hlen & Hsub).
    split_and!.
    + eapply frame_trans; [apply terminateRun_frame|done].
    + by rewrite Hl.
    + eapply runs_grow_trans; [apply terminateRun_grow|done].
    + rewrite Hlen, terminateRun_runObjs. apply length_alter.
    + etrans; [done|apply terminateRun_sublist].
Qed.

(** Terminating registered runs [rs] one after the other removes exactly
    them from a registry without duplicates, and touches no other run. *)
Lemma terminateRuns_registered rs m :
  NoDup rs → NoDup (scheduleRuns m) → (∀ r, r ∈ rs → r ∈ scheduleRuns m) →
  scheduleRuns (terminateRuns rs m)
  = List.filter (λ y, negb (bool_decide (y ∈ rs))) (scheduleRuns m)
  ∧ ∀ x, runObjs (terminateRuns rs m) !! x
         = if bool_decide (x ∈ rs)
           then (removeAllListeners ∘ terminate) <$> runObjs m !! x
           else runObjs m !! x.
Proof.
  revert m. induction rs as [|r rs IH]; intros m Hrs Hnd Hin.
  - change (terminateRuns [] m) with m. split; [|done].
    by rewrite filter_out_nil.
  - change (terminateRuns (r :: rs) m) with (terminateRuns rs (terminateRun r m)).
    apply NoDup_cons in Hrs as [Hr Hrs].
    assert (scheduleRuns (terminateRun r m)
            = List.filter (λ y, negb (bool_decide (y = r))) (scheduleRuns m)) as Hreg.
    { apply terminateRun_registered; [done|]. apply Hin. left. }
    destruct (IH (terminateRun r m)) as [Hregs Hobjs]; [done| | |].
    + rewrite Hreg. by apply NoDup_bfilter.
    + intros x Hx. rewrite Hreg. apply list_elem_of_In, List.filter_In.
      split; [apply list_elem_of_In, Hin; by right|].
      rewrite bool_decide_eq_false_2; [done|]. by intros ->.
    + split.
      * rewrite Hregs, Hreg. apply filter_out_cons.
      * intros x. rewrite Hobjs, terminateRun_runObjs.
        destruct (decide (x = r)) as [->|Hne].
        -- rewrite (bool_decide_eq_false_2 (r ∈ rs)) by done.
           rewrite (bool_decide_eq_true_2 (r ∈ r :: rs)) by left.
           apply list_lookup_alter_eq.
        -- rewrite list_lookup_alter_ne by done.
           destruct (decide (x ∈ rs)) as [Hx|Hx].
           ++ rewrite (bool_decide_eq_true_2 (x ∈ rs)) by done.
              by rewrite (bool_decide_eq_true_2 (x ∈ r :: rs)) by (by right).
           ++ rewrite (bool_decide_eq_false_2 (x ∈ rs)) by done.
              rewrite (bool_decide_eq_false_2 (x ∈ r :: rs)); [done|].
              intros [?|?]%elem_of_cons; done.
Qed.

Lemma getRuns_elem m s r :
  r ∈ getRuns m s ↔ r ∈ scheduleRuns m ∧ run_of m s r = true.
Proof. unfold getRuns. rewrite !list_elem_of_In. apply List.filter_In. Qed.

Lemma terminateScheduleRuns_registry s m :
  NoDup (scheduleRuns m) →
  scheduleRuns (terminateScheduleRuns s m)
  = List.filter (λ y, negb (run_of m s y)) (scheduleRuns m)
  ∧ ∀ x, runObjs (terminateScheduleRuns s m) !! x
         = if bool_decide (x ∈ getRuns m s)
           then (removeAllListeners ∘ terminate) <$> runObjs m !! x
           else runObjs m !! x.
Proof.
  intros Hnd.
  destruct (terminateRuns_registered (getRuns m s) m) as [Hregs Hobjs].
  - by apply NoDup_bfilter.
  - done.
  - intros r Hr. by apply getRuns_elem in Hr as [? _].
  - split; [|done]. change (terminateScheduleRuns s m) with (terminateRuns (getRuns m s) m).
    rewrite Hregs. apply List.filter_ext_in. intros y Hy%list_elem_of_In.
    destruct (run_of m s y) eqn:E.
    + rewrite bool_decide_eq_true_2; [done|]. by apply getRuns_elem.
    + rewrite bool_decide_eq_false_2; [done|].
      intros [_ ?]%getRuns_elem. congruence.
Qed.

(** *** [run] *)

Lemma alter_snoc {A} (f : A → A) (l : list A) (x : A) :
  alter f (length l) (l ++ [x]) = l ++ [f x].
Proof.
  rewrite <- (Nat.add_0_r (length l)) at 1. by rewrite alter_app_r.
Qed.

Lemma run_eq e s m :
  run e s m
  = set_scheduleRuns (λ l, l ++ [length (runObjs (remediate e s m))])
      (set_runObjs (λ os, os ++ [dispatched s (remediate e s m)]) (remediate e s m)).
Proof.
  unfold run. fold (remediate e s m). generalize (remediate e s m). intros m0.
  unfold new_ScheduleRun, set_scheduleRuns, set_runObjs. simpl.
  f_equal. by rewrite !alter_snoc.
Qed.

Lemma remediate_frame e s m :
  frame m (remediate e s m) ∧ runs_grow m (remediate e s m) ∧
  length (runObjs (remediate e s m)) = length (runObjs m) ∧
  sublist (scheduleRuns (remediate e s m)) (scheduleRuns m).
Proof.
  unfold remediate. destruct (atMaxRuns e m s).
  - unfold terminateScheduleRuns. fold (terminateRuns (getRuns
      (set_log (λ l, l ++ [LogWarn (unfinished_warning (length (getRuns m s)))]) m) s)
      (set_log (λ l, l ++ [LogWarn (unfinished_warning (length (getRuns m s)))]) m)).
    match goal with |- context [terminateRuns ?rs ?m0] =>
      destruct (terminateRuns_frame rs m0) as (Hf & _ & Hg & Hlen & Hsub) end.
    split_and!; [|done|done|done]. destruct Hf. by split.
  - split_and!; [apply frame_refl|apply runs_grow_refl|done|done].
Qed.

Lemma run_frame e s m : frame m (run e s m).
Proof.
  rewrite run_eq. destruct (remediate_frame e s m) as ([] & _). by split.
Qed.

Lemma run_runObjs e s m :
  runObjs (run e s m) = runObjs (remediate e s m) ++ [dispatched s (remediate e s m)].
Proof. by rewrite run_eq. Qed.

Lemma run_scheduleRuns e s m :
  scheduleRuns (run e s m) = scheduleRuns (remediate e s m) ++ [length (runObjs m)].
Proof.
  rewrite run_eq. simpl. destruct (remediate_frame e s m) as (_ & _ & -> & _). done.
Qed.

Lemma run_length e s m : length (runObjs (run e s m)) = S (length (runObjs m)).
Proof.
  rewrite run_runObjs, length_app. simpl.
  destruct (remediate_frame e s m) as (_ & _ & -> & _). lia.
Qed.

(** The run object created by [run e s m] sits at reference
    [length (runObjs m)] and carries what the side tables hold for [s]. *)
Lemma run_new e s m :
  runObjs (run e s m) !! length (runObjs m) = Some (dispatched s m).
Proof.
  rewrite run_runObjs.
  destruct (remediate_frame e s m) as ([] & _ & Hlen & _).
  rewrite lookup_app_r by lia. rewrite Hlen, Nat.sub_diag. simpl.
  unfold dispatched. by rewrite fr_scheduleRunCounts0, fr_memoryCollections0, fr_headers0.
Qed.

Lemma run_grow e s m : runs_grow m (run e s m).
Proof.
  intros r o Hr. destruct (remediate_frame e s m) as (_ & Hg & _).
  destruct (Hg r o Hr) as (o' & Ho' & Hargs). exists o'. split; [|done].
  rewrite run_runObjs. by apply lookup_app_l_Some.
Qed.

(** ** The invariant of the reachable states *)

Lemma wf_init e : wf e init.
Proof.
  split; simpl; try done.
  - constructor.
  - intros r Hr. by apply not_elem_of_nil in Hr.
Qed.

(** A step that keeps the framed fields and only removes registry entries
    keeps the invariant. *)
Lemma wf_shrink e m m' :
  wf e m → frame m m' →
  sublist (scheduleRuns m') (scheduleRuns m) →
  (length (runObjs m) ≤ length (runObjs m'))%nat →
  wf e m'.
Proof.
  intros [] [] Hsub Hlen. split.
  - by eapply sublist_NoDup.
  - intros r Hr. eapply Nat.lt_le_trans; [|done].
    apply wf_registered0. by eapply elem_of_sublist.
  - congruence.
  - intros k o. rewrite fr_headers0, fr_objects0. apply wf_headers0.
  - intros k o. rewrite fr_memoryCollections0, fr_objects0. apply wf_memory0.
  - rewrite fr_memoryCollections0. apply wf_nomongo0.
Qed.

Lemma terminateRun_wf e r m : wf e m → wf e (terminateRun r m).
Proof.
  intros Hwf. eapply wf_shrink; [done|apply terminateRun_frame|apply terminateRun_sublist|].
  rewrite terminateRun_runObjs, length_alter. done.
Qed.

Lemma terminateScheduleRuns_wf e s m : wf e m → wf e (terminateScheduleRuns s m).
Proof.
  intros Hwf. change (terminateScheduleRuns s m) with (terminateRuns (getRuns m s) m).
  destruct (terminateRuns_frame (getRuns m s) m) as (Hf & _ & _ & Hlen & Hsub).
  eapply wf_shrink; [done|done|done|]. by rewrite Hlen.
Qed.

Lemma run_wf e s m : wf e m → wf e (run e s m).
Proof.
  intros Hwf. pose proof (run_frame e s m) as [].
  destruct (remediate_frame e s m) as (_ & _ & _ & Hsub).
  destruct Hwf. split.
  - rewrite run_scheduleRuns. apply NoDup_app. split_and!.
    + by eapply sublist_NoDup.
    + intros r Hr Hr'. apply list_elem_of_singleton in Hr'. subst r.
      eapply elem_of_sublist in Hr; [|done]. apply wf_registered0 in Hr. lia.
    + apply NoDup_singleton.
  - intros r. rewrite run_scheduleRuns, run_length.
    intros [Hr|Hr]%elem_of_app.
    + eapply elem_of_sublist in Hr; [|done]. apply wf_registered0 in Hr. lia.
    + apply list_elem_of_singleton in Hr. lia.
  - congruence.
  - intros k o. rewrite fr_headers0, fr_objects0. apply wf_headers0.
  - intros k o. rewrite fr_memoryCollections0, fr_objects0. apply wf_memory0.
  - rewrite fr_memoryCollections0. apply wf_nomongo0.
Qed.

(** *** [addSchedule], field by field *)

Lemma addSchedule_schedules e s m :
  schedules (addSchedule e s m) = schedules m ++ [s].
Proof. unfold addSchedule, new_object. by destruct (isMongoDatabase e). Qed.

Lemma addSchedule_scheduleRunCounts e s m :
  scheduleRunCounts (addSchedule e s m) = <[s_ref s := VNumber 0]> (scheduleRunCounts m).
Proof. unfold addSchedule, new_object. by destruct (isMongoDatabase e). Qed.

Lemma addSchedule_headers e s m :
  headers (addSchedule e s m)
  = <[s_ref s := (length (objects m) + (if isMongoDatabase e then 1 else 0))%nat]> (headers m).
Proof.
  unfold addSchedule, new_object. destruct (isMongoDatabase e); simpl.
  - rewrite length_app. done.
  - by rewrite Nat.add_0_r.
Qed.

Lemma addSchedule_memoryCollections e s m :
  memoryCollections (addSchedule e s m)
  = if isMongoDatabase e then <[s_ref s := length (objects m)]> (memoryCollections m)
    else memoryCollections m.
Proof. unfold addSchedule, new_object. by destruct (isMongoDatabase e). Qed.

Lemma addSchedule_objects e s m :
  objects (addSchedule e s m)
  = objects m ++ (if isMongoDatabase e then [∅; ∅] else [∅]).
Proof.
  unfold addSchedule, new_object. destruct (isMongoDatabase e); simpl; [|done].
  by rewrite <- app_assoc.
Qed.

(** The registry, the run objects, the timers, the debug set and the log
    are not touched by [addSchedule]. *)
Lemma addSchedule_rest e s m :
  scheduleRuns (addSchedule e s m) = scheduleRuns m ∧
  runObjs (addSchedule e s m) = runObjs m ∧
  timers (addSchedule e s m) = timers m ∧
  intervals (addSchedule e s m) = intervals m ∧
  nextTimer (addSchedule e s m) = nextTimer m ∧
  debugFeedIDs (addSchedule e s m) = debugFeedIDs m ∧
  log (addSchedule e s m) = log m ∧
  emitted (addSchedule e s m) = emitted m.
Proof. unfold addSchedule, new_object. by destruct (isMongoDatabase e). Qed.

Lemma addSchedule_wf e s m : wf e m → wf e (addSchedule e s m).
Proof.
  intros [].
  destruct (addSchedule_rest e s m) as (Hr & Ho & Ht & Hi & _).
  split.
  - by rewrite Hr.
  - by rewrite Hr, Ho.
  - by rewrite Ht, Hi.
  - intros k o. rewrite addSchedule_headers, addSchedule_objects, length_app.
    destruct (decide (s_ref s = k)) as [->|Hne].
    + rewrite lookup_insert_eq. intros [= <-]. destruct (isMongoDatabase e); simpl; lia.
    + rewrite lookup_insert_ne by done. intros Hk%wf_headers0. lia.
  - intros k o. rewrite addSchedule_memoryCollections, addSchedule_objects, length_app.
    destruct (isMongoDatabase e); [|intros Hk%wf_memory0; lia].
    destruct (decide (s_ref s = k)) as [->|Hne].
    + rewrite lookup_insert_eq. intros [= <-]. simpl; lia.
    + rewrite lookup_insert_ne by done. intros Hk%wf_memory0. lia.
  - intros Hm. rewrite addSchedule_memoryCollections, Hm. by apply wf_nomongo0.
Qed.

Lemma addSchedules_wf e l m : wf e m → wf e (addSchedules e l m).
Proof.
  revert m. induction l as [|s l IH]; intros m Hwf; [done|].
  apply IH. by apply addSchedule_wf.
Qed.

(** *** Timers *)

Lemma bfilter_filter {A} (f g : A → bool) (l : list A) :
  List.filter f (List.filter g l) = List.filter (λ x, g x && f x) l.
Proof.
  induction l as [|x l IH]; simpl; [done|].
  destruct (g x); simpl; [|done]. destruct (f x); by rewrite IH.
Qed.

Lemma bfilter_true {A} (f : A → bool) (l : list A) :
  (∀ x, x ∈ l → f x = true) → List.filter f l = l.
Proof.
  induction l as [|x l IH]; intros Hf; simpl; [done|].
  rewrite Hf by left. rewrite IH; [done|]. intros y Hy. apply Hf. by right.
Qed.

Lemma bfilter_false {A} (f : A → bool) (l : list A) :
  (∀ x, x ∈ l → f x = false) → List.filter f l = [].
Proof.
  induction l as [|x l IH]; intros Hf; simpl; [done|].
  rewrite Hf by left. apply IH. intros y Hy. apply Hf. by right.
Qed.

(** Clearing the handles [ts] one by one leaves the intervals whose handle
    is none of them. *)
Lemma clearIntervals_eq ts m :
  foldl (λ m t, clearInterval t m) m ts
  = set_intervals
      (List.filter (λ i, forallb (λ t, negb (bool_decide (i_id i = t))) ts)) m.
Proof.
  revert m. induction ts as [|t ts IH]; intros m.
  - destruct m. unfold set_intervals. simpl. f_equal.
    symmetry. by apply bfilter_true.
  - simpl. rewrite IH. unfold clearInterval, set_intervals. simpl.
    f_equal. apply bfilter_filter.
Qed.

(** In a reachable state [clearTimers] disarms every interval and forgets
    every handle. *)
Lemma clearTimers_eq e m :
  wf e m → clearTimers m = set_intervals (λ _, []) (set_timers (λ _, []) m).
Proof.
  intros Hwf. pose proof (wf_timers _ _ Hwf) as Ht. unfold clearTimers.
  case_bool_decide as Hlen.
  - apply nil_length_inv in Hlen. rewrite Hlen in Ht.
    symmetry in Ht. apply fmap_nil_inv in Ht.
    destruct m. simpl in *. subst. reflexivity.
  - rewrite clearIntervals_eq. unfold set_timers, set_intervals. simpl.
    f_equal. apply bfilter_false. intros i Hi.
    apply not_true_is_false. intros Hall.
    rewrite forallb_forall in Hall.
    assert (In (i_id i) (timers m)) as Hin.
    { apply list_elem_of_In. rewrite Ht. apply list_elem_of_fmap. eauto. }
    specialize (Hall _ Hin). by rewrite bool_decide_eq_true_2 in Hall.
Qed.

Lemma clearTimers_wf e m : wf e m → wf e (clearTimers m).
Proof.
  intros Hwf. rewrite (clearTimers_eq e) by done. destruct Hwf. by split.
Qed.

Lemma beginTimers_eq e m :
  beginTimers e m = foldl (arm e) (clearTimers m) (schedules (clearTimers m)).
Proof. reflexivity. Qed.

Lemma arm_wf e m s : wf e m → wf e (arm e m s).
Proof.
  intros Hwf. apply (run_wf e s) in Hwf. unfold arm, setInterval.
  revert Hwf. generalize (run e s m). intros m1 []. split; try done.
  cbn [timers intervals set_timers set_nextTimer set_intervals].
  rewrite wf_timers0. by rewrite map_app.
Qed.

Lemma arms_wf e ss m : wf e m → wf e (foldl (arm e) m ss).
Proof.
  revert m. induction ss as [|s ss IH]; intros m Hwf; [done|].
  apply IH. by apply arm_wf.
Qed.

Lemma beginTimers_wf e m : wf e m → wf e (beginTimers e m).
Proof. intros Hwf. rewrite beginTimers_eq. by apply arms_wf, clearTimers_wf. Qed.

(** *** Events *)

Lemma incrementRunCount_wf e s m : wf e m → wf e (incrementRunCount s m).
Proof. intros []. by split. Qed.

Lemma set_runObjs_alter_wf e f r m : wf e m → wf e (set_runObjs (alter f r) m).
Proof.
  intros Hwf. eapply wf_shrink; [done|by split|done|].
  simpl. by rewrite length_alter.
Qed.

Lemma emit_finish_wf e r m : wf e m → wf e (emit_finish r m).
Proof.
  intros Hwf. unfold emit_finish.
  destruct (runObjs m !! r) as [o|]; [|done].
  destruct (r_onceFinish o); [|done].
  by apply incrementRunCount_wf, terminateRun_wf, set_runObjs_alter_wf.
Qed.

Lemma emit_pendingArticle_wf e r a m : wf e m → wf e (emit_pendingArticle r a m).
Proof.
  intros Hwf. unfold emit_pendingArticle, _onPendingArticle.
  destruct (runObjs m !! r) as [o|]; [|done].
  destruct (r_onPendingArticle o); [|done].
  destruct Hwf. case_bool_decide; by split.
Qed.

Lemma timer_fires_wf e t m : wf e m → wf e (timer_fires e t m).
Proof.
  intros Hwf. unfold timer_fires. destruct (List.find _ _); [|done].
  by apply run_wf.
Qed.

Lemma write_object_wf e ref k v m : wf e m → wf e (write_object ref k v m).
Proof.
  intros []. destruct ref as [o|]; [|by split].
  split; simpl; try done.
  - intros k' o'. rewrite length_alter. apply wf_headers0.
  - intros k' o'. rewrite length_alter. apply wf_memory0.
Qed.

Lemma step_wf e m o : wf e m → wf e (step e m o).
Proof.
  intros Hwf. destruct o; simpl.
  - by apply addSchedule_wf.
  - by apply addSchedules_wf.
  - by apply terminateRun_wf.
  - by apply terminateScheduleRuns_wf.
  - by apply run_wf.
  - by apply clearTimers_wf.
  - by apply beginTimers_wf.
  - destruct Hwf. by split.
  - destruct Hwf. by split.
  - by apply timer_fires_wf.
  - by apply emit_finish_wf.
  - by apply emit_pendingArticle_wf.
  - unfold write_memory. destruct (runObjs m !! r); [|done]. by apply write_object_wf.
  - unfold write_headers. destruct (runObjs m !! r); [|done]. by apply write_object_wf.
Qed.

Lemma exec_wf e ops m : wf e m → wf e (exec e ops m).
Proof.
  revert m. induction ops as [|o ops IH]; intros m Hwf; [done|].
  apply IH. by apply step_wf.
Qed.

Lemma reachable_wf e m : reachable e m → wf e m.
Proof. intros [ops ->]. apply exec_wf, wf_init. Qed.

Lemma reachable_step e m o : reachable e m → reachable e (step e m o).
Proof.
  intros [ops ->]. exists (ops ++ [o]). unfold exec. by rewrite foldl_snoc.
Qed.

Lemma reachable_exec e m ops : reachable e m → reachable e (exec e ops m).
Proof.
  intros [ops0 ->]. exists (ops0 ++ ops). unfold exec. by rewrite foldl_app.
Qed.

(** ** The capacity check *)

(** C1. [atMaxRuns] is an exact equality test: it answers true exactly when
    the configured [parallelRuns] is the number of registered runs of the
    schedule, so a schedule that already has more runs than the configured
    maximum is reported as not at capacity. *)
Theorem atMaxRuns_exact e m s :
  (atMaxRuns e m s = true ↔
   parallelRuns e = VNumber (Z.of_nat (length (getRuns m s)))) ∧
  (∀ n, parallelRuns e = VNumber n →
        n < Z.of_nat (length (getRuns m s)) → atMaxRuns e m s = false).
Proof.
  unfold atMaxRuns. split.
  - destruct (parallelRuns e) as [|n|]; simpl; [done| |done].
    rewrite bool_decide_eq_true. split; congruence.
  - intros n -> Hlt. simpl. apply bool_decide_eq_false. lia.
Qed.

(** One run with a bound of 1 is at capacity; two runs registered while the
    bound was 2 are not, once the bound has been lowered to 1. *)
Lemma atMaxRuns_exact_witness :
  atMaxRuns mongo1 (exec mongo1 [AddSchedule feeds; Run feeds] init) feeds = true ∧
  atMaxRuns mongo1 (exec mongo2 [AddSchedule feeds; Run feeds; Run feeds] init) feeds = false.
Proof.
  split.
  - apply (proj1 (atMaxRuns_exact mongo1 _ feeds)). reflexivity.
  - apply (proj2 (atMaxRuns_exact mongo1 _ feeds) 1); [reflexivity|].
    vm_compute. reflexivity.
Defined.

(** ** Dispatch at capacity *)

Lemma remediate_at_capacity e s m :
  wf e m → atMaxRuns e m s = true →
  log (remediate e s m)
  = log m ++ [LogWarn (unfinished_warning (length (getRuns m s)))] ∧
  scheduleRuns (remediate e s m)
  = List.filter (λ y, negb (run_of m s y)) (scheduleRuns m) ∧
  ∀ x, runObjs (remediate e s m) !! x
       = if bool_decide (x ∈ getRuns m s)
         then (removeAllListeners ∘ terminate) <$> runObjs m !! x
         else runObjs m !! x.
Proof.
  intros Hwf Hmax. unfold remediate. rewrite Hmax.
  set (m0 := set_log _ m).
  destruct (terminateScheduleRuns_registry s m0) as [Hregs Hobjs].
  { apply Hwf. }
  split_and!; [|done|done].
  change (terminateScheduleRuns s m0) with (terminateRuns (getRuns m0 s) m0).
  by destruct (terminateRuns_frame (getRuns m0 s) m0) as (_ & -> & _).
Qed.

(** C2. When [run] is called for a schedule that is at its maximum, it logs
    the warning that names the number of unfinished runs, terminates and
    unsubscribes every registered run of that schedule and takes them all out
    of the registry, and then registers and starts one new run: afterwards
    the registry holds the runs of the other schedules as before and, for
    this schedule, the new run only. *)
Theorem run_at_capacity e m s :
  reachable e m → atMaxRuns e m s = true →
  log (run e s m) = log m ++ [LogWarn (unfinished_warning (length (getRuns m s)))] ∧
  (∀ x, x ∈ getRuns m s →
        ∃ o, runObjs (run e s m) !! x = Some o ∧ r_terminated o = true ∧
             r_onceFinish o = false ∧ r_onPendingArticle o = false) ∧
  scheduleRuns (run e s m)
  = List.filter (λ y, negb (run_of m s y)) (scheduleRuns m) ++ [length (runObjs m)] ∧
  getRuns (run e s m) s = [length (runObjs m)] ∧
  (∃ o, runObjs (run e s m) !! length (runObjs m) = Some o ∧
        r_schedule o = s ∧ r_terminated o = false ∧ r_running o = true ∧
        r_onceFinish o = true ∧ r_onPendingArticle o = true).
Proof.
  intros Hwf%reachable_wf Hmax.
  destruct (remediate_at_capacity e s m Hwf Hmax) as (Hlog & Hregs & Hobjs).
  assert (scheduleRuns (run e s m)
          = List.filter (λ y, negb (run_of m s y)) (scheduleRuns m)
            ++ [length (runObjs m)]) as Hreg'.
  { by rewrite run_scheduleRuns, Hregs. }
  split_and!.
  - rewrite run_eq. simpl. done.
  - intros x Hx. pose proof Hx as Hx'. apply getRuns_elem in Hx' as [Hin _].
    apply (wf_registered _ _ Hwf) in Hin.
    destruct (lookup_lt_is_Some_2 _ _ Hin) as [o Ho].
    exists (removeAllListeners (terminate o)). split; [|done].
    rewrite run_runObjs. apply lookup_app_l_Some.
    rewrite Hobjs, bool_decide_eq_true_2 by done. by rewrite Ho.
  - done.
  - unfold getRuns. rewrite Hreg', List.filter_app, bfilter_filter.
    rewrite bfilter_false.
    + simpl. unfold run_of at 1. rewrite run_new. simpl.
      unfold same_schedule. by rewrite bool_decide_eq_true_2.
    + intros x Hx. rewrite (run_of_grow m (run e s m)).
      * by destruct (run_of m s x).
      * apply run_grow.
      * by apply (wf_registered _ _ Hwf).
  - exists (dispatched s m). split; [apply run_new|done].
Qed.

Lemma run_at_capacity_witness :
  getRuns (run mongo1 feeds (exec mongo1 [AddSchedule feeds; Run feeds] init)) feeds
  = [1%nat].
Proof.
  apply (run_at_capacity mongo1 (exec mongo1 [AddSchedule feeds; Run feeds] init) feeds).
  - by eexists.
  - reflexivity.
Defined.

(** ** The side tables along a trace *)

(** The events that only log, re-emit or write into a cache object leave
    most fields alone; their cases are closed by unfolding and case analysis. *)
Ltac passive_event :=
  unfold emit_pendingArticle, _onPendingArticle, write_memory, write_headers,
    write_object;
  repeat first
    [ done
    | case_bool_decide
    | match goal with
      | |- context [match ?x with Some _ => _ | None => _ end] => destruct x
      | |- context [if ?b then _ else _] => destruct b
      end ].

Lemma tables_refl m : tables m m.
Proof. by split. Qed.

Lemma tables_trans m1 m2 m3 : tables m1 m2 → tables m2 m3 → tables m1 m3.
Proof. intros [] []. split; congruence. Qed.

Lemma frame_tables m m' : frame m m' → tables m m'.
Proof. intros []. by split. Qed.

Lemma clearTimers_tables m : tables m (clearTimers m).
Proof.
  unfold clearTimers. case_bool_decide; [apply tables_refl|].
  rewrite clearIntervals_eq. by split.
Qed.

Lemma arm_tables e m s : tables m (arm e m s).
Proof.
  pose proof (frame_tables _ _ (run_frame e s m)) as Ht.
  unfold arm, setInterval. revert Ht. generalize (run e s m).
  intros m1 []. by split.
Qed.

Lemma arms_tables e ss m : tables m (foldl (arm e) m ss).
Proof.
  revert m. induction ss as [|s ss IH]; intros m; [apply tables_refl|].
  eapply tables_trans; [apply arm_tables|apply IH].
Qed.

Lemma beginTimers_tables e m : tables m (beginTimers e m).
Proof.
  rewrite beginTimers_eq.
  eapply tables_trans; [apply clearTimers_tables|apply arms_tables].
Qed.

Lemma terminateScheduleRuns_frame s m : frame m (terminateScheduleRuns s m).
Proof. apply (terminateRuns_frame (getRuns m s) m). Qed.

Lemma timer_fires_frame e t m : frame m (timer_fires e t m).
Proof.
  unfold timer_fires. destruct (List.find _ _); [apply run_frame|apply frame_refl].
Qed.

Lemma completions_app e s m ops1 ops2 :
  completions e s m (ops1 ++ ops2)
  = (completions e s m ops1 + completions e s (exec e ops1 m) ops2)%nat.
Proof.
  revert m. induction ops1 as [|o ops1 IH]; intros m; simpl; [done|].
  rewrite IH. lia.
Qed.

Lemma addSchedule_other e s' s m :
  same_schedule s' s = false →
  scheduleRunCounts (addSchedule e s' m) !! s_ref s = scheduleRunCounts m !! s_ref s ∧
  headers (addSchedule e s' m) !! s_ref s = headers m !! s_ref s ∧
  memoryCollections (addSchedule e s' m) !! s_ref s = memoryCollections m !! s_ref s.
Proof.
  intros Hne%bool_decide_eq_false.
  rewrite addSchedule_scheduleRunCounts, addSchedule_headers,
    addSchedule_memoryCollections.
  rewrite !lookup_insert_ne by done.
  destruct (isMongoDatabase e); [by rewrite lookup_insert_ne|done].
Qed.

Lemma addSchedules_other e l s m :
  existsb (λ s', same_schedule s' s) l = false →
  scheduleRunCounts (addSchedules e l m) !! s_ref s = scheduleRunCounts m !! s_ref s ∧
  headers (addSchedules e l m) !! s_ref s = headers m !! s_ref s ∧
  memoryCollections (addSchedules e l m) !! s_ref s = memoryCollections m !! s_ref s.
Proof.
  revert m. induction l as [|s' l IH]; intros m Hl; [done|].
  simpl in Hl. apply orb_false_iff in Hl as [Hs' Hl].
  change (addSchedules e (s' :: l) m) with (addSchedules e l (addSchedule e s' m)).
  destruct (IH (addSchedule e s' m) Hl) as (-> & -> & ->).
  by apply addSchedule_other.
Qed.


(** A step that does not register [s] changes the counter of [s] only when
    it is a delivered [finish] of a run of [s], and then by one. *)
Lemma step_counter e s m o :
  adds s o = false →
  counts_get (scheduleRunCounts (step e m o)) s
  = if finishes s m o then add1 (counts_get (scheduleRunCounts m) s)
    else counts_get (scheduleRunCounts m) s.
Proof.
  intros Hadd. unfold counts_get. destruct o; cbn [step adds finishes] in *.
  - by destruct (addSchedule_other e s0 s m Hadd) as (-> & _).
  - by destruct (addSchedules_other e l s m Hadd) as (-> & _).
  - done.
  - by destruct (terminateScheduleRuns_frame s0 m) as [_ _ _ -> _ _ _ _ _ _].
  - by destruct (run_frame e s0 m) as [_ _ _ -> _ _ _ _ _ _].
  - by destruct (clearTimers_tables m) as [_ -> _ _ _ _ _].
  - by destruct (beginTimers_tables e m) as [_ -> _ _ _ _ _].
  - done.
  - done.
  - by destruct (timer_fires_frame e t m) as [_ _ _ -> _ _ _ _ _ _].
  - unfold emit_finish. destruct (runObjs m !! r) as [ob|]; [|done].
    destruct (r_onceFinish ob); simpl; [|done].
    unfold same_schedule. case_bool_decide as Hs.
    + unfold counts_get. rewrite Hs. by rewrite lookup_insert_eq.
    + by rewrite lookup_insert_ne.
  - passive_event.
  - passive_event.
  - passive_event.
Qed.

Lemma exec_counter e s ops m n :
  Forall (λ o, adds s o = false) ops →
  counts_get (scheduleRunCounts m) s = VNumber n →
  counts_get (scheduleRunCounts (exec e ops m)) s
  = VNumber (n + Z.of_nat (completions e s m ops)).
Proof.
  revert m n. induction ops as [|o ops IH]; intros m n Hops Hn.
  - simpl. rewrite Hn. f_equal. lia.
  - apply Forall_cons in Hops as [Ho Hops].
    change (exec e (o :: ops) m) with (exec e ops (step e m o)).
    pose proof (step_counter e s m o Ho) as Hstep. rewrite Hn in Hstep.
    cbn [completions]. destruct (finishes s m o).
    + rewrite (IH _ (n + 1)); [f_equal; lia|done|done].
    + rewrite (IH _ n); [f_equal; lia|done|done].
Qed.

(** ** The run counter *)

(** C3, as the code has it.  [addSchedule s] sets the counter of [s] to 0.
    Along any trace that does not register [s] again, the counter of [s] is
    the number of [finish] signals delivered for runs of [s]: each of them
    adds exactly one, nothing else changes it (forced termination, by
    [terminateRun], [terminateScheduleRuns] or the remediation inside [run],
    included), and so it never decreases along such a trace. *)
Theorem run_count_is_completions e s m ops1 ops2 :
  Forall (λ o, adds s o = false) (ops1 ++ ops2) →
  counts_get (scheduleRunCounts (addSchedule e s m)) s = VNumber 0 ∧
  counts_get (scheduleRunCounts (exec e ops1 (addSchedule e s m))) s
  = VNumber (Z.of_nat (completions e s (addSchedule e s m) ops1)) ∧
  counts_get (scheduleRunCounts (exec e (ops1 ++ ops2) (addSchedule e s m))) s
  = VNumber (Z.of_nat (completions e s (addSchedule e s m) (ops1 ++ ops2))) ∧
  (completions e s (addSchedule e s m) ops1
   ≤ completions e s (addSchedule e s m) (ops1 ++ ops2))%nat ∧
  (∀ m' r s', scheduleRunCounts (terminateRun r m') = scheduleRunCounts m' ∧
              scheduleRunCounts (terminateScheduleRuns s' m') = scheduleRunCounts m' ∧
              scheduleRunCounts (remediate e s' m') = scheduleRunCounts m').
Proof.
  intros Hops.
  assert (counts_get (scheduleRunCounts (addSchedule e s m)) s = VNumber 0) as H0.
  { unfold counts_get. by rewrite addSchedule_scheduleRunCounts, lookup_insert_eq. }
  split_and!.
  - done.
  - rewrite (exec_counter e s ops1 _ 0); [done| |done].
    by apply Forall_app in Hops as [? _].
  - by rewrite (exec_counter e s (ops1 ++ ops2) _ 0).
  - rewrite completions_app. lia.
  - intros m' r s'. split_and!.
    + done.
    + by destruct (terminateScheduleRuns_frame s' m').
    + by destruct (remediate_frame e s' m') as ([] & _).
Qed.

Lemma run_count_is_completions_witness :
  counts_get (scheduleRunCounts
    (exec mongo1 ([Run feeds; Run feeds; EmitFinish 0%nat] ++ [EmitFinish 1%nat; Run feeds])
       (addSchedule mongo1 feeds init))) feeds
  = VNumber 1.
Proof.
  refine (proj1 (proj2 (proj2 (run_count_is_completions mongo1 feeds init
    [Run feeds; Run feeds; EmitFinish 0%nat] [EmitFinish 1%nat; Run feeds] _)))).
  repeat constructor.
Defined.

(** Registering the schedule again sets its counter back: after one normal
    completion the counter is 1, and [addSchedule] makes it 0. *)
Lemma run_count_reset_by_addSchedule :
  completions mongo1 feeds init
    [AddSchedule feeds; Run feeds; EmitFinish 0%nat; AddSchedule feeds] = 1%nat ∧
  counts_get (scheduleRunCounts
    (exec mongo1 [AddSchedule feeds; Run feeds; EmitFinish 0%nat] init)) feeds
  = VNumber 1 ∧
  counts_get (scheduleRunCounts
    (exec mongo1 [AddSchedule feeds; Run feeds; EmitFinish 0%nat; AddSchedule feeds] init)) feeds
  = VNumber 0.
Proof. vm_compute. done. Qed.

(** ** Registering a schedule twice *)

(** C4, as the code has it.  [addSchedule s] on a schedule that already has
    its header cache does change the state: it appends one more entry for [s]
    to the schedule list, sets the counter of [s] to 0 and installs a freshly
    allocated empty header cache, different from the old one (and, with a
    Mongo backend, a freshly allocated empty memory cache).  The registry,
    the run objects, the timers, the debug set, the existing cache objects
    and the table entries of the other schedules stay as they were. *)
Theorem addSchedule_again e s m old :
  reachable e m → headers m !! s_ref s = Some old →
  schedules (addSchedule e s m) = schedules m ++ [s] ∧
  counts_get (scheduleRunCounts (addSchedule e s m)) s = VNumber 0 ∧
  (∃ h, headers (addSchedule e s m) !! s_ref s = Some h ∧ h ≠ old ∧
        (length (objects m) ≤ h)%nat ∧ objects (addSchedule e s m) !! h = Some ∅) ∧
  (if isMongoDatabase e
   then ∃ c, memoryCollections (addSchedule e s m) !! s_ref s = Some c ∧
             (length (objects m) ≤ c)%nat ∧ objects (addSchedule e s m) !! c = Some ∅
   else memoryCollections (addSchedule e s m) = memoryCollections m) ∧
  (∀ k, k ≠ s_ref s →
        scheduleRunCounts (addSchedule e s m) !! k = scheduleRunCounts m !! k ∧
        headers (addSchedule e s m) !! k = headers m !! k ∧
        memoryCollections (addSchedule e s m) !! k = memoryCollections m !! k) ∧
  (∀ i c, objects m !! i = Some c → objects (addSchedule e s m) !! i = Some c) ∧
  scheduleRuns (addSchedule e s m) = scheduleRuns m ∧
  runObjs (addSchedule e s m) = runObjs m ∧
  timers (addSchedule e s m) = timers m ∧
  intervals (addSchedule e s m) = intervals m ∧
  debugFeedIDs (addSchedule e s m) = debugFeedIDs m.
Proof.
  intros Hwf%reachable_wf Hold.
  destruct (addSchedule_rest e s m) as (Hr & Ho & Ht & Hi & _ & Hd & _).
  apply (wf_headers _ _ Hwf) in Hold.
  split_and!; try done.
  - apply addSchedule_schedules.
  - unfold counts_get. by rewrite addSchedule_scheduleRunCounts, lookup_insert_eq.
  - eexists. rewrite addSchedule_headers, lookup_insert_eq, addSchedule_objects.
    split; [done|]. split; [lia|]. split; [lia|].
    destruct (isMongoDatabase e).
    + rewrite lookup_app_r by lia.
      by replace (length (objects m) + 1 - length (objects m))%nat with 1%nat by lia.
    + rewrite lookup_app_r by lia.
      by replace (length (objects m) + 0 - length (objects m))%nat with 0%nat by lia.
  - rewrite addSchedule_memoryCollections, addSchedule_objects.
    destruct (isMongoDatabase e); [|done].
    eexists. rewrite lookup_insert_eq. split; [done|]. split; [lia|].
    rewrite lookup_app_r by lia. by rewrite Nat.sub_diag.
  - intros k Hk.
    rewrite addSchedule_scheduleRunCounts, addSchedule_headers,
      addSchedule_memoryCollections.
    rewrite !lookup_insert_ne by done.
    destruct (isMongoDatabase e); [by rewrite lookup_insert_ne|done].
  - intros i c Hi'. rewrite addSchedule_objects. by apply lookup_app_l_Some.
Qed.

Lemma addSchedule_again_witness :
  schedules (addSchedule mongo1 feeds (exec mongo1 [AddSchedule feeds] init))
  = [feeds; feeds].
Proof.
  refine (proj1 (addSchedule_again mongo1 feeds
                   (exec mongo1 [AddSchedule feeds] init) 1%nat _ _)).
  - by eexists.
  - reflexivity.
Defined.

(** With [feeds] registered, one run finished and an entity tag cached,
    [addSchedule feeds] is not the identity: the list gets a second entry,
    the counter goes from 1 to 0 and the header cache is another, empty
    object. *)
Lemma addSchedule_not_idempotent :
  let m := exec mongo1 [AddSchedule feeds; Run feeds; WriteHeaders 0%nat "etag" "abc";
                        EmitFinish 0%nat] init in
  feeds ∈ schedules m ∧
  addSchedule mongo1 feeds m ≠ m ∧
  schedules m = [feeds] ∧ schedules (addSchedule mongo1 feeds m) = [feeds; feeds] ∧
  scheduleRunCounts m !! 0%nat = Some (VNumber 1) ∧
  scheduleRunCounts (addSchedule mongo1 feeds m) !! 0%nat = Some (VNumber 0) ∧
  headers m !! 0%nat = Some 1%nat ∧
  objects m !! 1%nat = Some {[ "etag" := "abc" ]} ∧
  headers (addSchedule mongo1 feeds m) !! 0%nat = Some 3%nat ∧
  objects (addSchedule mongo1 feeds m) !! 3%nat = Some ∅.
Proof.
  intros m. split_and!; try (vm_compute; reflexivity).
  - apply list_elem_of_In. vm_compute. by left.
  - intros Heq. apply (f_equal (λ x, length (schedules x))) in Heq.
    vm_compute in Heq. discriminate.
Qed.

(** ** Where the bound comes from *)

(** C5, as the code has it.  The bound [atMaxRuns] compares with is the
    global [parallelRuns] alone: the answer depends on the schedule only
    through its identity, so an override carried by the schedule is not
    consulted.  When the global value is a number the check is the equality
    with it; when it is [undefined] nothing fails: the check answers false
    and [run] goes on to register a new run, nothing being terminated. *)
Theorem atMaxRuns_global_only e m s :
  (∀ s', s_ref s' = s_ref s → atMaxRuns e m s' = atMaxRuns e m s) ∧
  (∀ n, parallelRuns e = VNumber n →
        atMaxRuns e m s = bool_decide (Z.of_nat (length (getRuns m s)) = n)) ∧
  (parallelRuns e = VUndefined →
   atMaxRuns e m s = false ∧
   scheduleRuns (run e s m) = scheduleRuns m ++ [length (runObjs m)]).
Proof.
  split_and!.
  - intros s' Hs'. unfold atMaxRuns.
    assert (getRuns m s' = getRuns m s) as ->; [|done].
    apply List.filter_ext. intros r. unfold run_of, same_schedule.
    by rewrite Hs'.
  - intros n Hn. unfold atMaxRuns. by rewrite Hn.
  - intros Hu. assert (atMaxRuns e m s = false) as Hno.
    { unfold atMaxRuns. by rewrite Hu. }
    split; [done|]. rewrite run_scheduleRuns. unfold remediate. by rewrite Hno.
Qed.

Lemma atMaxRuns_global_only_witness :
  atMaxRuns mongo2 (exec mongo2 [AddSchedule vip; Run vip] init) vip
  = atMaxRuns mongo2 (exec mongo2 [AddSchedule vip; Run vip] init)
      (mkSchedule 1 "vip" 1 None) ∧
  atMaxRuns unbounded (exec unbounded [AddSchedule feeds; Run feeds] init) feeds = false.
Proof.
  split.
  - apply (proj1 (atMaxRuns_global_only mongo2 _ (mkSchedule 1 "vip" 1 None)) vip).
    reflexivity.
  - apply (proj2 (proj2 (atMaxRuns_global_only unbounded _ feeds))). reflexivity.
Defined.

(** A schedule whose own cap is 1 and that has one run is at capacity by the
    spec's rule, but not for [atMaxRuns] when the global value is 2; and with
    no bound at all the spec's rule fails where [atMaxRuns] answers false. *)
Lemma atMaxRuns_ignores_override :
  let m := exec mongo2 [AddSchedule vip; Run vip] init in
  maxRunsOverride vip = Some 1 ∧ getRuns m vip = [0%nat] ∧
  isAtCapacity_spec mongo2 m vip = inr true ∧
  atMaxRuns mongo2 m vip = false ∧
  isAtCapacity_spec unbounded (exec unbounded [AddSchedule feeds; Run feeds] init) feeds
  = inl ConfigUnavailableError ∧
  atMaxRuns unbounded (exec unbounded [AddSchedule feeds; Run feeds] init) feeds = false.
Proof. vm_compute. done. Qed.

(** ** Terminating a run that is not registered *)

(** C9. For a run [r] that exists but is not in a non-empty registry,
    [indexOf] is -1 and [splice(-1, 1)] deletes the last entry: the most
    recently registered run leaves the registry, and [r] itself ends up
    terminated with its listeners removed. *)
Theorem terminateRun_unregistered m r o :
  r ∉ scheduleRuns m → scheduleRuns m ≠ [] → runObjs m !! r = Some o →
  indexOf (scheduleRuns m) r = -1 ∧
  (∃ l x, scheduleRuns m = l ++ [x] ∧ scheduleRuns (terminateRun r m) = l) ∧
  (∃ o', runObjs (terminateRun r m) !! r = Some o' ∧ r_terminated o' = true ∧
         r_onceFinish o' = false ∧ r_onPendingArticle o' = false).
Proof.
  intros Hr Hne Ho. split_and!.
  - by apply indexOf_notin.
  - destruct (scheduleRuns m) as [|x l _] eqn:E using rev_ind; [done|].
    exists l, x. split; [done|].
    rewrite terminateRun_scheduleRuns, E, indexOf_notin by done.
    apply splice_minus_one_snoc.
  - exists (removeAllListeners (terminate o)). split; [|done].
    by rewrite terminateRun_runObjs, list_lookup_alter_eq, Ho.
Qed.

Lemma terminateRun_unregistered_witness :
  ∃ l x,
    scheduleRuns (exec mongo2 [AddSchedule feeds; Run feeds; EmitFinish 0%nat; Run feeds] init)
    = l ++ [x] ∧
    scheduleRuns (terminateRun 0
      (exec mongo2 [AddSchedule feeds; Run feeds; EmitFinish 0%nat; Run feeds] init)) = l.
Proof.
  refine (proj1 (proj2 (terminateRun_unregistered
    (exec mongo2 [AddSchedule feeds; Run feeds; EmitFinish 0%nat; Run feeds] init) 0
    (removeAllListeners (terminate (dispatched feeds (addSchedule mongo2 feeds init))))
    _ _ _))).
  - vm_compute. intros H. apply list_elem_of_In in H. simpl in H. intuition discriminate.
  - vm_compute. discriminate.
  - vm_compute. reflexivity.
Defined.




(** ** Run objects along a trace *)

Lemma runs_grow_eq m m' : runObjs m' = runObjs m → runs_grow m m'.
Proof. intros E r o Hr. exists o. rewrite E. by repeat split. Qed.

Lemma addSchedules_runObjs e l m : runObjs (addSchedules e l m) = runObjs m.
Proof.
  revert m. induction l as [|s l IH]; intros m; [done|].
  change (addSchedules e (s :: l) m) with (addSchedules e l (addSchedule e s m)).
  rewrite IH. apply addSchedule_rest.
Qed.

Lemma clearTimers_runObjs m : runObjs (clearTimers m) = runObjs m.
Proof.
  unfold clearTimers. case_bool_decide; [done|]. by rewrite clearIntervals_eq.
Qed.

Lemma arm_runObjs e m s : runObjs (arm e m s) = runObjs (run e s m).
Proof. unfold arm, setInterval. by generalize (run e s m). Qed.

Lemma arms_grow e ss m : runs_grow m (foldl (arm e) m ss).
Proof.
  revert m. induction ss as [|s ss IH]; intros m; [apply runs_grow_refl|].
  eapply runs_grow_trans; [|apply IH].
  eapply runs_grow_trans; [apply (run_grow e s)|apply runs_grow_eq, arm_runObjs].
Qed.

Lemma step_grow e m o : runs_grow m (step e m o).
Proof.
  destruct o; cbn [step].
  - apply runs_grow_eq, addSchedule_rest.
  - apply runs_grow_eq, addSchedules_runObjs.
  - apply terminateRun_grow.
  - apply (terminateRuns_frame (getRuns m s) m).
  - apply run_grow.
  - apply runs_grow_eq, clearTimers_runObjs.
  - rewrite beginTimers_eq.
    eapply runs_grow_trans; [apply runs_grow_eq, clearTimers_runObjs|apply arms_grow].
  - by apply runs_grow_eq.
  - by apply runs_grow_eq.
  - unfold timer_fires. destruct (List.find _ _); [apply run_grow|apply runs_grow_refl].
  - unfold emit_finish. destruct (runObjs m !! r) as [ob|]; [|apply runs_grow_refl].
    destruct (r_onceFinish ob); [|apply runs_grow_refl].
    eapply runs_grow_trans; [|by apply runs_grow_eq].
    eapply runs_grow_trans; [|apply terminateRun_grow].
    apply runs_grow_alter. intros ?. by repeat split.
  - apply runs_grow_eq. passive_event.
  - apply runs_grow_eq. passive_event.
  - apply runs_grow_eq. passive_event.
Qed.



(** ** The caches handed to consecutive runs *)




(** ** Starting the timers *)






(** *** The dispatches of [beginTimers] *)















(** ** The memory cache without a Mongo backend *)

(** C10. When the backend is not Mongo, [addSchedule] allocates the header
    cache only and leaves the memory table as it was, the table is empty in
    every reachable state, and so every dispatch builds its run with an
    [undefined] memory collection.  Whatever the backend, [addSchedule]
    gives the schedule a header cache that is an allocated, empty object. *)
Theorem memory_cache_needs_mongo e m s :
  (isMongoDatabase e = false →
   memoryCollections (addSchedule e s m) = memoryCollections m ∧
   objects (addSchedule e s m) = objects m ++ [∅] ∧
   (reachable e m →
    memoryCollections m = ∅ ∧
    ∀ s', ∃ o, runObjs (run e s' m) !! length (runObjs m) = Some o ∧
               r_schedule o = s' ∧ r_memoryCollection o = None)) ∧
  (∃ h, headers (addSchedule e s m) !! s_ref s = Some h ∧
        objects (addSchedule e s m) !! h = Some ∅).
Proof.
  split.
  - intros Hm. rewrite addSchedule_memoryCollections, addSchedule_objects, Hm.
    split_and!; [done|done|].
    intros Hwf%reachable_wf. pose proof (wf_nomongo _ _ Hwf Hm) as Hempty.
    split; [done|]. intros s'. exists (dispatched s' m).
    split; [apply run_new|]. split; [done|]. simpl. by rewrite Hempty.
  - eexists. rewrite addSchedule_headers, lookup_insert_eq, addSchedule_objects.
    split; [done|]. rewrite lookup_app_r by lia.
    destruct (isMongoDatabase e).
    + by replace (length (objects m) + 1 - length (objects m))%nat with 1%nat by lia.
    + by replace (length (objects m) + 0 - length (objects m))%nat with 0%nat by lia.
Qed.

Lemma memory_cache_needs_mongo_witness :
  ∃ o, runObjs (run files1 feeds (exec files1 [AddSchedule feeds; Run feeds] init)) !! 1%nat
       = Some o ∧ r_schedule o = feeds ∧ r_memoryCollection o = None.
Proof.
  refine (proj2 (proj2 (proj2 (proj1 (memory_cache_needs_mongo files1
    (exec files1 [AddSchedule feeds; Run feeds] init) feeds) _)) _) feeds).
  - reflexivity.
  - by eexists.
Defined.

(** ** More on the registry *)

Lemma sublist_bfilter {A} (f : A → bool) (l1 l2 : list A) :
  sublist l1 l2 → sublist (List.filter f l1) (List.filter f l2).
Proof.
  induction 1 as [|x l1 l2 _ IH|x l1 l2 _ IH]; simpl.
  - constructor.
  - destruct (f x); [by constructor|done].
  - destruct (f x); [by apply sublist_cons|done].
Qed.

Lemma filter_run_of_grow m m' s (l : list nat) :
  runs_grow m m' → (∀ x, x ∈ l → (x < length (runObjs m))%nat) →
  List.filter (run_of m' s) l = List.filter (run_of m s) l.
Proof.
  intros Hg Hl. apply List.filter_ext_in. intros x Hx%list_elem_of_In.
  apply run_of_grow; auto.
Qed.

Lemma same_schedule_run_of m s s' x :
  same_schedule s' s = true → run_of m s' x = run_of m s x.
Proof.
  intros Hs%bool_decide_eq_true. unfold run_of, same_schedule.
  destruct (runObjs m !! x); [|done]. by rewrite Hs.
Qed.

Lemma diff_schedule_run_of m s s' x :
  same_schedule s' s = false → run_of m s' x = true → run_of m s x = false.
Proof.
  intros Hs%bool_decide_eq_false. unfold run_of, same_schedule.
  destruct (runObjs m !! x); [|done].
  intros Hx%bool_decide_eq_true. apply bool_decide_eq_false. congruence.
Qed.

(** The runs of [s] after a step that only removes registry entries are
    among the runs of [s] before. *)
Lemma getRuns_shrink e m m' s :
  wf e m → runs_grow m m' → sublist (scheduleRuns m') (scheduleRuns m) →
  sublist (getRuns m' s) (getRuns m s).
Proof.
  intros Hwf Hg Hsub. unfold getRuns.
  rewrite (filter_run_of_grow m m' s) by
    (try done; intros x Hx; apply (wf_registered _ _ Hwf); by eapply elem_of_sublist).
  by apply sublist_bfilter.
Qed.

Lemma remediate_registry e s m :
  wf e m →
  scheduleRuns (remediate e s m)
  = if atMaxRuns e m s
    then List.filter (λ y, negb (run_of m s y)) (scheduleRuns m)
    else scheduleRuns m.
Proof.
  intros Hwf. destruct (atMaxRuns e m s) eqn:E.
  - by destruct (remediate_at_capacity e s m Hwf E) as (_ & -> & _).
  - unfold remediate. by rewrite E.
Qed.

(** The runs of [s] after a dispatch of [s']. *)
Lemma getRuns_run e s' s m :
  wf e m →
  getRuns (run e s' m) s
  = List.filter (run_of m s) (scheduleRuns (remediate e s' m))
    ++ (if same_schedule s' s then [length (runObjs m)] else []).
Proof.
  intros Hwf. unfold getRuns. rewrite run_scheduleRuns, List.filter_app. f_equal.
  - apply filter_run_of_grow; [apply run_grow|].
    intros x Hx. apply (wf_registered _ _ Hwf).
    eapply elem_of_sublist; [done|]. apply remediate_frame.
  - simpl. unfold run_of. by rewrite run_new.
Qed.

Lemma arm_scheduleRuns e m s : scheduleRuns (arm e m s) = scheduleRuns (run e s m).
Proof. unfold arm, setInterval. by generalize (run e s m). Qed.

Lemma getRuns_arm e s' s m : getRuns (arm e m s') s = getRuns (run e s' m) s.
Proof. unfold arm, setInterval. by generalize (run e s' m). Qed.

Lemma addSchedules_scheduleRuns e l m :
  scheduleRuns (addSchedules e l m) = scheduleRuns m.
Proof.
  revert m. induction l as [|s l IH]; intros m; [done|].
  change (addSchedules e (s :: l) m) with (addSchedules e l (addSchedule e s m)).
  rewrite IH. apply addSchedule_rest.
Qed.

Lemma clearTimers_scheduleRuns m : scheduleRuns (clearTimers m) = scheduleRuns m.
Proof.
  unfold clearTimers. case_bool_decide; [done|]. by rewrite clearIntervals_eq.
Qed.

Lemma emit_finish_sublist r m :
  sublist (scheduleRuns (emit_finish r m)) (scheduleRuns m).
Proof.
  unfold emit_finish. destruct (runObjs m !! r) as [o|]; [|done].
  destruct (r_onceFinish o); [|done].
  apply (terminateRun_sublist r (set_runObjs (alter off_finish r) m)).
Qed.

(** Every step that is not a dispatch leaves a part of the registry. *)
Lemma step_shrink e m o :
  match o with Run _ | BeginTimers | TimerFires _ => False | _ => True end →
  sublist (scheduleRuns (step e m o)) (scheduleRuns m).
Proof.
  destruct o; cbn [step]; intros Ho; try done.
  - by destruct (addSchedule_rest e s m) as (-> & _).
  - by rewrite addSchedules_scheduleRuns.
  - apply terminateRun_sublist.
  - apply (terminateRuns_frame (getRuns m s) m).
  - by rewrite clearTimers_scheduleRuns.
  - apply emit_finish_sublist.
  - passive_event.
  - passive_event.
  - passive_event.
Qed.

(** *** The number of runs of a schedule stays within the bound *)

Lemma atMaxRuns_number e m s n :
  parallelRuns e = VNumber n →
  atMaxRuns e m s = bool_decide (Z.of_nat (length (getRuns m s)) = n).
Proof. intros Hn. unfold atMaxRuns. by rewrite Hn. Qed.

Lemma bfilter_and_sublist {A} (f g : A → bool) (l : list A) :
  sublist (List.filter (λ x, g x && f x) l) (List.filter f l).
Proof.
  induction l as [|x l IH]; simpl; [constructor|].
  destruct (g x), (f x); simpl; try done; by constructor.
Qed.

Lemma run_bounded e s' m n :
  parallelRuns e = VNumber n → 1 ≤ n → wf e m →
  (∀ s, Z.of_nat (length (getRuns m s)) ≤ n) →
  ∀ s, Z.of_nat (length (getRuns (run e s' m) s)) ≤ n.
Proof.
  intros Hn Hpos Hwf Hb s.
  rewrite (getRuns_run e s' s m Hwf), (remediate_registry e s' m Hwf), length_app.
  pose proof (atMaxRuns_number e m s' n Hn) as Hmax.
  destruct (same_schedule s' s) eqn:Hs.
  - assert (getRuns m s' = getRuns m s) as Hsame.
    { apply List.filter_ext. intros x. by apply same_schedule_run_of. }
    destruct (atMaxRuns e m s') eqn:E.
    + rewrite bfilter_filter, bfilter_false; [simpl; lia|].
      intros x _. rewrite (same_schedule_run_of m s s' x Hs).
      by destruct (run_of m s x).
    + symmetry in Hmax. apply bool_decide_eq_false in Hmax.
      rewrite Hsame in Hmax. specialize (Hb s). fold (getRuns m s). simpl. lia.
  - simpl. rewrite Nat.add_0_r. destruct (atMaxRuns e m s').
    + rewrite bfilter_filter. etrans; [|apply (Hb s)].
      apply inj_le, sublist_length, bfilter_and_sublist.
    + apply Hb.
Qed.

Lemma arms_bounded e ss m n :
  parallelRuns e = VNumber n → 1 ≤ n → wf e m →
  (∀ s, Z.of_nat (length (getRuns m s)) ≤ n) →
  ∀ s, Z.of_nat (length (getRuns (foldl (arm e) m ss) s)) ≤ n.
Proof.
  intros Hn Hpos. revert m. induction ss as [|s' ss IH]; intros m Hwf Hb; [done|].
  simpl. apply IH; [by apply arm_wf|].
  intros s. rewrite getRuns_arm. by apply run_bounded.
Qed.

Lemma step_bounded e m o n :
  parallelRuns e = VNumber n → 1 ≤ n → wf e m →
  (∀ s, Z.of_nat (length (getRuns m s)) ≤ n) →
  ∀ s, Z.of_nat (length (getRuns (step e m o) s)) ≤ n.
Proof.
  intros Hn Hpos Hwf Hb.
  assert (match o with Run _ | BeginTimers | TimerFires _ => False | _ => True end →
          ∀ s, Z.of_nat (length (getRuns (step e m o) s)) ≤ n) as Hshrink.
  { intros Ho s. etrans; [|apply (Hb s)]. apply inj_le, sublist_length.
    eapply getRuns_shrink; [done|apply step_grow|by apply step_shrink]. }
  destruct o; try (by apply Hshrink); cbn [step].
  - by apply run_bounded.
  - rewrite beginTimers_eq. apply arms_bounded; [done|done|by apply clearTimers_wf|].
    intros s. etrans; [|apply (Hb s)]. apply inj_le, sublist_length.
    eapply getRuns_shrink; [done|apply runs_grow_eq, clearTimers_runObjs|].
    by rewrite clearTimers_scheduleRuns.
  - unfold timer_fires. destruct (List.find _ _); [by apply run_bounded|done].
Qed.

(** X1. With a configured bound of at least one, no schedule ever has more
    registered runs than the bound, in any state the manager can reach. *)
Theorem runs_within_bound e m n s :
  parallelRuns e = VNumber n → 1 ≤ n → reachable e m →
  Z.of_nat (length (getRuns m s)) ≤ n.
Proof.
  intros Hn Hpos [ops ->]. revert s.
  assert (∀ m0, wf e m0 → (∀ s, Z.of_nat (length (getRuns m0 s)) ≤ n) →
                ∀ s, Z.of_nat (length (getRuns (exec e ops m0) s)) ≤ n) as Hexec.
  { induction ops as [|o ops IH]; intros m0 Hwf Hb; [done|].
    change (exec e (o :: ops) m0) with (exec e ops (step e m0 o)).
    apply IH; [by apply step_wf|by apply step_bounded]. }
  apply Hexec; [apply wf_init|]. intros s. simpl. lia.
Qed.

Lemma runs_within_bound_witness :
  Z.of_nat (length (getRuns
    (exec mongo2 [AddSchedule feeds; Run feeds; Run feeds; Run feeds; BeginTimers] init)
    feeds)) ≤ 2.
Proof.
  apply (runs_within_bound mongo2 _ 2 feeds); [reflexivity|lia|by eexists].
Defined.

(** *** Registered runs are live *)

Lemma live_same m m' :
  scheduleRuns m' = scheduleRuns m → runObjs m' = runObjs m → live m → live m'.
Proof. intros Hr Ho Hl r. rewrite Hr, Ho. apply Hl. Qed.

(** Removing registry entries, among them [r], and changing no run object
    but [r] keeps the registered runs live. *)
Lemma live_shrink m m' r :
  live m → sublist (scheduleRuns m') (scheduleRuns m) →
  r ∉ scheduleRuns m' → (∀ x, x ≠ r → runObjs m' !! x = runObjs m !! x) →
  live m'.
Proof.
  intros Hl Hsub Hr Hobjs x Hx.
  assert (x ≠ r) as Hne by (by intros ->).
  rewrite (Hobjs x Hne). apply Hl. by eapply elem_of_sublist.
Qed.

Lemma terminateRun_absent r m :
  NoDup (scheduleRuns m) → r ∉ scheduleRuns (terminateRun r m).
Proof.
  intros Hnd. destruct (decide (r ∈ scheduleRuns m)) as [Hin|Hout].
  - rewrite terminateRun_registered by done.
    intros [_ Hr]%list_elem_of_In%List.filter_In.
    by rewrite bool_decide_eq_true_2 in Hr.
  - intros Hin. apply Hout. eapply elem_of_sublist; [done|apply terminateRun_sublist].
Qed.

Lemma terminateRun_live e r m : wf e m → live m → live (terminateRun r m).
Proof.
  intros Hwf Hl. apply (live_shrink m _ r Hl).
  - apply terminateRun_sublist.
  - apply terminateRun_absent, Hwf.
  - intros x Hx. rewrite terminateRun_runObjs. by apply list_lookup_alter_ne.
Qed.

Lemma terminateRuns_live e rs m : wf e m → live m → live (terminateRuns rs m).
Proof.
  revert m. induction rs as [|r rs IH]; intros m Hwf Hl; [done|].
  change (terminateRuns (r :: rs) m) with (terminateRuns rs (terminateRun r m)).
  apply IH; [by apply terminateRun_wf|by eapply terminateRun_live].
Qed.

Lemma remediate_live e s m : wf e m → live m → live (remediate e s m).
Proof.
  intros Hwf Hl. unfold remediate. destruct (atMaxRuns e m s); [|done].
  apply (terminateRuns_live e); [|done]. destruct Hwf. by split.
Qed.

Lemma run_live e s m : wf e m → live m → live (run e s m).
Proof.
  intros Hwf Hl. pose proof (remediate_live e s m Hwf Hl) as Hl0.
  destruct (remediate_frame e s m) as (_ & _ & Hlen & _).
  intros r. rewrite run_eq. simpl. intros [Hr|Hr]%elem_of_app.
  - destruct (Hl0 r Hr) as (o & Ho & ?). exists o. split; [|done].
    by apply lookup_app_l_Some.
  - apply list_elem_of_singleton in Hr as ->.
    exists (dispatched s (remediate e s m)). split; [|done].
    by rewrite lookup_app_r, Nat.sub_diag by lia.
Qed.

Lemma arms_live e ss m : wf e m → live m → live (foldl (arm e) m ss).
Proof.
  revert m. induction ss as [|s ss IH]; intros m Hwf Hl; [done|].
  simpl. apply IH; [by apply arm_wf|].
  apply (live_same (run e s m));
    [apply arm_scheduleRuns|apply arm_runObjs|by apply run_live].
Qed.

Lemma emit_finish_live e r m : wf e m → live m → live (emit_finish r m).
Proof.
  intros Hwf Hl. unfold emit_finish.
  destruct (runObjs m !! r) as [o|]; [|done].
  destruct (r_onceFinish o); [|done].
  apply (live_shrink m _ r Hl).
  - apply (terminateRun_sublist r (set_runObjs (alter off_finish r) m)).
  - apply (terminateRun_absent r (set_runObjs (alter off_finish r) m)), Hwf.
  - intros x Hx. cbn [runObjs incrementRunCount set_scheduleRunCounts].
    rewrite terminateRun_runObjs. simpl.
    by rewrite !list_lookup_alter_ne.
Qed.

Lemma step_live e m o : wf e m → live m → live (step e m o).
Proof.
  intros Hwf Hl. destruct o; cbn [step].
  - apply (live_same m); [apply addSchedule_rest|apply addSchedule_rest|done].
  - apply (live_same m);
      [apply addSchedules_scheduleRuns|apply addSchedules_runObjs|done].
  - by eapply terminateRun_live.
  - by apply (terminateRuns_live e).
  - by apply run_live.
  - apply (live_same m); [apply clearTimers_scheduleRuns|apply clearTimers_runObjs|done].
  - rewrite beginTimers_eq. apply arms_live; [by apply clearTimers_wf|].
    apply (live_same m); [apply clearTimers_scheduleRuns|apply clearTimers_runObjs|done].
  - done.
  - done.
  - unfold timer_fires. destruct (List.find _ _); [by apply run_live|done].
  - by eapply emit_finish_live.
  - apply (live_same m); [passive_event|passive_event|done].
  - apply (live_same m); [passive_event|passive_event|done].
  - apply (live_same m); [passive_event|passive_event|done].
Qed.

Lemma reachable_live e m : reachable e m → live m.
Proof.
  intros [ops ->].
  assert (∀ m0, wf e m0 → live m0 → live (exec e ops m0)) as Hexec.
  { induction ops as [|o ops IH]; intros m0 Hwf Hl; [done|].
    change (exec e (o :: ops) m0) with (exec e ops (step e m0 o)).
    apply IH; [by apply step_wf|by apply step_live]. }
  apply Hexec; [apply wf_init|]. intros r Hr. by apply not_elem_of_nil in Hr.
Qed.

(** X2. In every state the manager can reach, the registry names no run
    twice, and every run it names exists, has been started, has not been
    terminated and still has the manager's [finish] and [pendingArticle]
    listeners attached. *)
Theorem registry_holds_live_runs e m :
  reachable e m →
  NoDup (scheduleRuns m) ∧
  ∀ r, r ∈ scheduleRuns m →
       ∃ o, runObjs m !! r = Some o ∧ r_terminated o = false ∧
            r_onceFinish o = true ∧ r_onPendingArticle o = true ∧
            r_running o = true.
Proof.
  intros Hr. split; [apply (reachable_wf e m Hr)|apply (reachable_live e m Hr)].
Qed.

Lemma registry_holds_live_runs_witness :
  NoDup (scheduleRuns
    (exec mongo2 [AddSchedule feeds; AddSchedule vip; Run feeds; Run vip; Run feeds;
                  EmitFinish 0%nat] init)) ∧
  ∀ r, r ∈ scheduleRuns
             (exec mongo2 [AddSchedule feeds; AddSchedule vip; Run feeds; Run vip;
                           Run feeds; EmitFinish 0%nat] init) →
       ∃ o, runObjs
              (exec mongo2 [AddSchedule feeds; AddSchedule vip; Run feeds; Run vip;
                            Run feeds; EmitFinish 0%nat] init) !! r = Some o ∧
            r_terminated o = false ∧ r_onceFinish o = true ∧
            r_onPendingArticle o = true ∧ r_running o = true.
Proof.
  refine (registry_holds_live_runs mongo2
    (exec mongo2 [AddSchedule feeds; AddSchedule vip; Run feeds; Run vip; Run feeds;
                  EmitFinish 0%nat] init) _).
  by eexists.
Defined.

(** *** Terminating registered runs *)

(** X3. In a reachable state, [terminateRun] on a registered run takes that
    run's entry, and no other, out of the registry, keeping the order of the
    rest; the run ends up terminated and without listeners, and no other run
    object is touched. *)
Theorem terminateRun_registered_run e m r :
  reachable e m → r ∈ scheduleRuns m →
  (∃ l1 l2, scheduleRuns m = l1 ++ r :: l2 ∧
            scheduleRuns (terminateRun r m) = l1 ++ l2) ∧
  (r ∉ scheduleRuns (terminateRun r m)) ∧
  (∃ o, runObjs (terminateRun r m) !! r = Some o ∧ r_terminated o = true ∧
        r_onceFinish o = false ∧ r_onPendingArticle o = false) ∧
  (∀ x, x ≠ r → runObjs (terminateRun r m) !! x = runObjs m !! x).
Proof.
  intros Hwf%reachable_wf Hr. split_and!.
  - destruct (list_elem_of_split _ _ Hr) as (l1 & l2 & E).
    exists l1, l2. split; [done|].
    pose proof (wf_nodup _ _ Hwf) as Hnd. rewrite E in Hnd.
    apply NoDup_app in Hnd as (_ & Hdisj & _).
    rewrite terminateRun_scheduleRuns, E, indexOf_split, splice_one_at; [done|].
    intros Hin. apply (Hdisj r Hin). left.
  - apply terminateRun_absent, Hwf.
  - apply (wf_registered _ _ Hwf) in Hr.
    destruct (lookup_lt_is_Some_2 _ _ Hr) as [o Ho].
    exists (removeAllListeners (terminate o)). split; [|done].
    by rewrite terminateRun_runObjs, list_lookup_alter_eq, Ho.
  - intros x Hx. rewrite terminateRun_runObjs. by apply list_lookup_alter_ne.
Qed.

Lemma terminateRun_registered_run_witness :
  ∃ l1 l2,
    scheduleRuns (exec mongo2 [AddSchedule feeds; Run feeds; Run feeds] init)
    = l1 ++ 0%nat :: l2 ∧
    scheduleRuns (terminateRun 0
      (exec mongo2 [AddSchedule feeds; Run feeds; Run feeds] init)) = l1 ++ l2.
Proof.
  refine (proj1 (terminateRun_registered_run mongo2
    (exec mongo2 [AddSchedule feeds; Run feeds; Run feeds] init) 0 _ _)).
  - by eexists.
  - apply list_elem_of_In. vm_compute. by left.
Defined.

(** X4. In a reachable state, [terminateScheduleRuns s] leaves no registered
    run of [s], terminates and unsubscribes each of those it removed, keeps
    the runs of every other schedule as they were, and a second call changes
    nothing more. *)
Theorem terminateScheduleRuns_clears e m s :
  reachable e m →
  getRuns (terminateScheduleRuns s m) s = [] ∧
  (∀ s', same_schedule s' s = false →
         getRuns (terminateScheduleRuns s m) s' = getRuns m s') ∧
  (∀ r, r ∈ getRuns m s →
        ∃ o, runObjs (terminateScheduleRuns s m) !! r = Some o ∧
             r_terminated o = true ∧ r_onceFinish o = false ∧
             r_onPendingArticle o = false) ∧
  terminateScheduleRuns s (terminateScheduleRuns s m) = terminateScheduleRuns s m.
Proof.
  intros Hwf%reachable_wf.
  destruct (terminateScheduleRuns_registry s m (wf_nodup _ _ Hwf)) as [Hregs Hobjs].
  assert (∀ s0, getRuns (terminateScheduleRuns s m) s0
                = List.filter (λ x, negb (run_of m s x) && run_of m s0 x)
                              (scheduleRuns m)) as Hget.
  { intros s0. unfold getRuns at 1. rewrite Hregs.
    rewrite (filter_run_of_grow m (terminateScheduleRuns s m)).
    - apply bfilter_filter.
    - apply (terminateRuns_frame (getRuns m s) m).
    - intros x [Hx _]%list_elem_of_In%List.filter_In.
      by apply (wf_registered _ _ Hwf), list_elem_of_In. }
  assert (getRuns (terminateScheduleRuns s m) s = []) as Hnil.
  { rewrite Hget. apply bfilter_false. intros x _. by destruct (run_of m s x). }
  split_and!.
  - done.
  - intros s' Hs'. rewrite Hget. apply List.filter_ext. intros x.
    destruct (run_of m s' x) eqn:E; [|by rewrite andb_false_r].
    by rewrite (diff_schedule_run_of m s s' x Hs' E).
  - intros r Hr. pose proof Hr as [Hin _]%getRuns_elem.
    apply (wf_registered _ _ Hwf) in Hin.
    destruct (lookup_lt_is_Some_2 _ _ Hin) as [o Ho].
    exists (removeAllListeners (terminate o)). split; [|done].
    by rewrite Hobjs, bool_decide_eq_true_2, Ho.
  - unfold terminateScheduleRuns at 1. by rewrite Hnil.
Qed.

Lemma terminateScheduleRuns_clears_witness :
  getRuns (terminateScheduleRuns feeds
    (exec mongo2 [AddSchedule feeds; AddSchedule vip; Run feeds; Run vip; Run feeds] init))
    feeds = [].
Proof.
  apply (terminateScheduleRuns_clears mongo2). by eexists.
Defined.

(** *** Signals of a run *)

(** X5. Once [terminateRun] has been called on a run, whatever that run
    emits is ignored: a late [finish] neither touches the registry nor
    counts as a completion, and a late [pendingArticle] is not re-emitted. *)
Theorem terminated_run_is_ignored m r a :
  emit_finish r (terminateRun r m) = terminateRun r m ∧
  emit_pendingArticle r a (terminateRun r m) = terminateRun r m.
Proof.
  unfold emit_finish, emit_pendingArticle.
  rewrite terminateRun_runObjs, list_lookup_alter_eq.
  by destruct (runObjs m !! r).
Qed.

(** X6. The [finish] listener is a once-listener: a second [finish] from the
    same run changes nothing, so one run counts for at most one completion. *)
Theorem finish_counts_once m r :
  emit_finish r (emit_finish r m) = emit_finish r m.
Proof.
  assert (emit_finish r m = m ∨
          ∃ o, emit_finish r m
               = incrementRunCount (r_schedule o)
                   (terminateRun r (set_runObjs (alter off_finish r) m))) as [E| [o E]].
  { unfold emit_finish. destruct (runObjs m !! r) as [o|]; [|by left].
    destruct (r_onceFinish o); [right; by exists o|by left]. }
  - by rewrite !E.
  - rewrite E. unfold emit_finish at 1.
    cbn [runObjs incrementRunCount set_scheduleRunCounts].
    rewrite terminateRun_runObjs. cbn [runObjs set_runObjs].
    rewrite !list_lookup_alter_eq. by destruct (runObjs m !! r).
Qed.

(** X7. In a reachable state, when a registered run emits [finish], its
    entry and no other leaves the registry, the run is terminated and
    unsubscribed, the counter of its schedule goes up by one and the counter
    of every other schedule stays. *)
Theorem finish_of_registered_run e m r o :
  reachable e m → r ∈ scheduleRuns m → runObjs m !! r = Some o →
  (∃ l1 l2, scheduleRuns m = l1 ++ r :: l2 ∧
            scheduleRuns (emit_finish r m) = l1 ++ l2) ∧
  (∃ o', runObjs (emit_finish r m) !! r = Some o' ∧ r_terminated o' = true ∧
         r_onceFinish o' = false ∧ r_onPendingArticle o' = false) ∧
  counts_get (scheduleRunCounts (emit_finish r m)) (r_schedule o)
  = add1 (counts_get (scheduleRunCounts m) (r_schedule o)) ∧
  (∀ k, k ≠ s_ref (r_schedule o) →
        scheduleRunCounts (emit_finish r m) !! k = scheduleRunCounts m !! k).
Proof.
  intros Hreach Hr Ho. pose proof (reachable_wf _ _ Hreach) as Hwf.
  destruct (reachable_live _ _ Hreach r Hr) as (o0 & Ho0 & _ & Hon & _).
  rewrite Ho in Ho0. injection Ho0 as <-.
  unfold emit_finish. rewrite Ho, Hon.
  cbn [scheduleRuns runObjs scheduleRunCounts incrementRunCount set_scheduleRunCounts].
  split_and!.
  - destruct (list_elem_of_split _ _ Hr) as (l1 & l2 & E).
    exists l1, l2. split; [done|].
    pose proof (wf_nodup _ _ Hwf) as Hnd. rewrite E in Hnd.
    apply NoDup_app in Hnd as (_ & Hdisj & _).
    rewrite terminateRun_scheduleRuns. cbn [scheduleRuns set_runObjs].
    rewrite E, indexOf_split, splice_one_at; [done|].
    intros Hin. apply (Hdisj r Hin). left.
  - eexists. rewrite terminateRun_runObjs. cbn [runObjs set_runObjs].
    rewrite !list_lookup_alter_eq, Ho. split; [done|]. done.
  - unfold counts_get. by rewrite lookup_insert_eq.
  - intros k Hk. by rewrite lookup_insert_ne.
Qed.

Lemma finish_of_registered_run_witness :
  ∃ l1 l2,
    scheduleRuns (exec mongo2 [AddSchedule feeds; Run feeds; Run feeds] init)
    = l1 ++ 0%nat :: l2 ∧
    scheduleRuns (emit_finish 0
      (exec mongo2 [AddSchedule feeds; Run feeds; Run feeds] init)) = l1 ++ l2.
Proof.
  refine (proj1 (finish_of_registered_run mongo2
    (exec mongo2 [AddSchedule feeds; Run feeds; Run feeds] init) 0
    (dispatched feeds (addSchedule mongo2 feeds init)) _ _ _)).
  - by eexists.
  - apply list_elem_of_In. vm_compute. by left.
  - vm_compute. reflexivity.
Defined.

(** *** Dispatch away from the boundary *)

(** X8. In a reachable state, when [atMaxRuns] answers false, [run] logs
    nothing and terminates nothing: the run objects and the registry are the
    old ones with the new run appended, and the schedule has one more run. *)
Theorem run_below_capacity e m s :
  reachable e m → atMaxRuns e m s = false →
  log (run e s m) = log m ∧
  runObjs (run e s m) = runObjs m ++ [dispatched s m] ∧
  scheduleRuns (run e s m) = scheduleRuns m ++ [length (runObjs m)] ∧
  getRuns (run e s m) s = getRuns m s ++ [length (runObjs m)].
Proof.
  intros Hwf%reachable_wf Hno.
  assert (remediate e s m = m) as Hrem by (unfold remediate; by rewrite Hno).
  split_and!.
  - by rewrite run_eq, Hrem.
  - by rewrite run_runObjs, Hrem.
  - by rewrite run_scheduleRuns, Hrem.
  - rewrite (getRuns_run e s s m Hwf), Hrem. unfold same_schedule.
    by rewrite bool_decide_eq_true_2.
Qed.

Lemma run_below_capacity_witness :
  getRuns (run mongo2 feeds (exec mongo2 [AddSchedule feeds; Run feeds] init)) feeds
  = getRuns (exec mongo2 [AddSchedule feeds; Run feeds] init) feeds ++ [1%nat].
Proof.
  refine (proj2 (proj2 (proj2 (run_below_capacity mongo2
    (exec mongo2 [AddSchedule feeds; Run feeds] init) feeds _ _)))).
  - by eexists.
  - reflexivity.
Defined.

Lemma run_adds_one e m s :
  wf e m → (∀ n, parallelRuns e = VNumber n → n ≤ 0) →
  length (getRuns (run e s m) s) = S (length (getRuns m s)).
Proof.
  intros Hwf Hn. rewrite (getRuns_run e s s m Hwf), (remediate_registry e s m Hwf).
  unfold same_schedule. rewrite bool_decide_eq_true_2 by done.
  rewrite length_app. simpl. rewrite Nat.add_1_r. f_equal.
  destruct (atMaxRuns e m s) eqn:E; [|done].
  unfold atMaxRuns in E. destruct (parallelRuns e) as [|n|] eqn:Hp; try done.
  simpl in E. apply bool_decide_eq_true in E. specialize (Hn n eq_refl).
  assert (getRuns m s = []) as Hnil by (apply nil_length_inv; lia).
  rewrite Hnil, bfilter_filter. rewrite bfilter_false; [done|].
  intros x Hx. destruct (run_of m s x) eqn:Hx'; [|done].
  assert (x ∈ getRuns m s) as Hin by (by apply getRuns_elem).
  rewrite Hnil in Hin. by apply not_elem_of_nil in Hin.
Qed.

(** X9. When the configured value gives no bound of at least one (it is
    [undefined], [NaN], zero or negative), dispatching never terminates the
    backlog: [k] dispatches of a schedule in a row leave it with [k] more
    registered runs than before. *)
Theorem runs_pile_up_without_bound e m s k :
  reachable e m → (∀ n, parallelRuns e = VNumber n → n ≤ 0) →
  length (getRuns (exec e (replicate k (Run s)) m) s)
  = (length (getRuns m s) + k)%nat.
Proof.
  intros Hwf%reachable_wf Hn. revert m Hwf.
  induction k as [|k IH]; intros m Hwf; [simpl; lia|].
  change (exec e (replicate (S k) (Run s)) m)
    with (exec e (replicate k (Run s)) (run e s m)).
  rewrite IH by (by apply run_wf). rewrite run_adds_one by done. lia.
Qed.

Lemma runs_pile_up_without_bound_witness :
  length (getRuns (exec unbounded (replicate 3 (Run feeds))
                     (exec unbounded [AddSchedule feeds] init)) feeds)
  = (length (getRuns (exec unbounded [AddSchedule feeds] init) feeds) + 3)%nat.
Proof.
  apply (runs_pile_up_without_bound unbounded).
  - by eexists.
  - intros n Hn. discriminate Hn.
Defined.

(** *** The counter of a schedule that was never registered *)

Lemma exec_counter_nan e s ops m :
  Forall (λ o, adds s o = false) ops →
  not_a_number (counts_get (scheduleRunCounts m) s) →
  counts_get (scheduleRunCounts (exec e ops m)) s
  = if decide (completions e s m ops = 0%nat)
    then counts_get (scheduleRunCounts m) s else VNaN.
Proof.
  revert m. induction ops as [|o ops IH]; intros m Hops Hnan; [done|].
  apply Forall_cons in Hops as [Ho Hops].
  change (exec e (o :: ops) m) with (exec e ops (step e m o)).
  pose proof (step_counter e s m o Ho) as Hstep.
  cbn [completions]. destruct (finishes s m o).
  - assert (counts_get (scheduleRunCounts (step e m o)) s = VNaN) as Hn.
    { rewrite Hstep. by destruct Hnan as [-> | ->]. }
    rewrite IH; [|done|rewrite Hn; by right]. rewrite Hn.
    rewrite (decide_False (P := (1 + _)%nat = 0%nat)) by lia. by case_decide.
  - rewrite IH; [|done|by rewrite Hstep]. rewrite Hstep. done.
Qed.

(** X10. A schedule that has no counter (it was never passed to
    [addSchedule]) is dispatched all the same: its run is built with an
    [undefined] run count.  Its counter can never become a number: the first
    normal completion of one of its runs makes it [NaN], and [NaN] it stays,
    as long as the schedule is not registered. *)
Theorem unregistered_schedule_counter e s m ops :
  scheduleRunCounts m !! s_ref s = None →
  Forall (λ o, adds s o = false) ops →
  (∃ o, runObjs (run e s m) !! length (runObjs m) = Some o ∧
        r_runCount o = VUndefined) ∧
  not_a_number (counts_get (scheduleRunCounts (exec e ops m)) s) ∧
  ((0 < completions e s m ops)%nat →
   counts_get (scheduleRunCounts (exec e ops m)) s = VNaN).
Proof.
  intros Hnone Hops.
  assert (counts_get (scheduleRunCounts m) s = VUndefined) as Hu.
  { unfold counts_get. by rewrite Hnone. }
  pose proof (exec_counter_nan e s ops m Hops) as Hc.
  rewrite Hu in Hc. specialize (Hc (or_introl eq_refl)).
  split_and!.
  - exists (dispatched s m). split; [apply run_new|]. simpl. done.
  - rewrite Hc. case_decide; [by left|by right].
  - intros Hpos. rewrite Hc. case_decide; [lia|done].
Qed.

Lemma unregistered_schedule_counter_witness :
  counts_get (scheduleRunCounts
    (exec mongo2 [Run feeds; EmitFinish 0%nat; Run feeds; EmitFinish 1%nat] init)) feeds
  = VNaN.
Proof.
  refine (proj2 (proj2 (unregistered_schedule_counter mongo2 feeds init
    [Run feeds; EmitFinish 0%nat; Run feeds; EmitFinish 1%nat] _ _)) _).
  - reflexivity.
  - repeat constructor.
  - vm_compute. lia.
Defined.

(** *** Stopping the timers *)

Lemma addSchedules_timers e l m :
  timers (addSchedules e l m) = timers m ∧
  intervals (addSchedules e l m) = intervals m.
Proof.
  revert m. induction l as [|s l IH]; intros m; [done|].
  change (addSchedules e (s :: l) m) with (addSchedules e l (addSchedule e s m)).
  destruct (IH (addSchedule e s m)) as [-> ->].
  by destruct (addSchedule_rest e s m) as (_ & _ & -> & -> & _).
Qed.

(** With nothing armed, only [beginTimers] arms something. *)
Lemma step_disarmed e m o :
  o ≠ BeginTimers → timers m = [] → intervals m = [] →
  timers (step e m o) = [] ∧ intervals (step e m o) = [].
Proof.
  intros Ho Ht Hi. destruct o; cbn [step]; try done.
  - by destruct (addSchedule_rest e s m) as (_ & _ & -> & -> & _).
  - by destruct (addSchedules_timers e l m) as [-> ->].
  - by destruct (terminateScheduleRuns_frame s m) as [-> _ _ _ _ _ _ _ -> _].
  - by destruct (run_frame e s m) as [-> _ _ _ _ _ _ _ -> _].
  - unfold clearTimers. by rewrite Ht.
  - unfold timer_fires. by rewrite Hi.
  - unfold emit_finish. destruct (runObjs m !! r) as [ob|]; [|done].
    by destruct (r_onceFinish ob).
  - split; passive_event.
  - split; passive_event.
  - split; passive_event.
Qed.

(** X11. In a reachable state [clearTimers] disarms every interval the
    manager armed and forgets every handle, and touches neither the
    registry, the run objects nor the side tables.  From then on no timer
    dispatches anything: whichever handle fires, the state stays, and
    nothing is armed again until [beginTimers] is called.  Calling
    [clearTimers] twice is the same as once. *)
Theorem clearTimers_stops_dispatch e m :
  reachable e m →
  timers (clearTimers m) = [] ∧
  intervals (clearTimers m) = [] ∧
  scheduleRuns (clearTimers m) = scheduleRuns m ∧
  runObjs (clearTimers m) = runObjs m ∧
  tables m (clearTimers m) ∧
  clearTimers (clearTimers m) = clearTimers m ∧
  (∀ ops, Forall (λ o, o ≠ BeginTimers) ops →
          intervals (exec e ops (clearTimers m)) = [] ∧
          ∀ t, timer_fires e t (exec e ops (clearTimers m))
               = exec e ops (clearTimers m)).
Proof.
  intros Hwf%reachable_wf.
  assert (timers (clearTimers m) = [] ∧ intervals (clearTimers m) = []) as [Ht Hi].
  { by rewrite (clearTimers_eq e m Hwf). }
  split_and!; try done.
  - apply clearTimers_scheduleRuns.
  - apply clearTimers_runObjs.
  - apply clearTimers_tables.
  - unfold clearTimers at 1. by rewrite Ht.
  - intros ops Hops.
    assert (intervals (exec e ops (clearTimers m)) = []) as Hnone.
    { revert Ht Hi. generalize (clearTimers m). clear Hwf m.
      induction ops as [|o ops IH]; intros m Ht Hi; [done|].
      apply Forall_cons in Hops as [Ho Hops].
      change (exec e (o :: ops) m) with (exec e ops (step e m o)).
      destruct (step_disarmed e m o Ho Ht Hi). by apply IH. }
    split; [done|]. intros t. unfold timer_fires. by rewrite Hnone.
Qed.

Lemma clearTimers_stops_dispatch_witness :
  intervals (clearTimers
    (exec mongo1 [AddSchedule feeds; AddSchedule vip; BeginTimers] init)) = [].
Proof.
  refine (proj1 (proj2 (clearTimers_stops_dispatch mongo1
    (exec mongo1 [AddSchedule feeds; AddSchedule vip; BeginTimers] init) _))).
  by eexists.
Defined.

(** *** The debug set *)

(** X12. [addDebugFeedID] makes [isDebugging] true for that feed and
    [removeDebugFeedID] makes it false, neither changes the answer for any
    other feed, adding a feed twice is adding it once, and no feed is traced
    in the state the constructor leaves. *)
Theorem debug_set_lookup m (f g : string) :
  isDebugging (addDebugFeedID f m) f = true ∧
  isDebugging (removeDebugFeedID f m) f = false ∧
  (g ≠ f → isDebugging (addDebugFeedID f m) g = isDebugging m g ∧
           isDebugging (removeDebugFeedID f m) g = isDebugging m g) ∧
  addDebugFeedID f (addDebugFeedID f m) = addDebugFeedID f m ∧
  isDebugging (removeDebugFeedID f (addDebugFeedID f m)) f = false ∧
  isDebugging init f = false.
Proof.
  unfold isDebugging, addDebugFeedID, removeDebugFeedID, set_debugFeedIDs. simpl.
  split_and!.
  - apply bool_decide_eq_true, elem_of_union_r, elem_of_singleton. done.
  - apply bool_decide_eq_false. rewrite elem_of_difference, elem_of_singleton.
    by intros [_ ?].
  - intros Hne. split; apply bool_decide_ext.
    + rewrite elem_of_union, elem_of_singleton. tauto.
    + rewrite elem_of_difference, elem_of_singleton. tauto.
  - f_equal. by rewrite <- (assoc_L (∪)), (idemp_L (∪)).
  - apply bool_decide_eq_false. rewrite elem_of_difference, elem_of_singleton.
    by intros [_ ?].
  - apply bool_decide_eq_false, not_elem_of_empty.
Qed.

Lemma debug_set_lookup_witness :
  isDebugging (addDebugFeedID "a" init) "b" = isDebugging init "b" ∧
  isDebugging (removeDebugFeedID "a" init) "b" = isDebugging init "b".
Proof.
  apply (proj1 (proj2 (proj2 (debug_set_lookup init "a" "b")))). discriminate.
Defined.

(** *** Re-emitting pending articles *)

Lemma emit_pendingArticle_subscribed r a m o :
  runObjs m !! r = Some o → r_onPendingArticle o = true →
  emitted (emit_pendingArticle r a m) = emitted m ++ [a] ∧
  log (emit_pendingArticle r a m)
  = log m ++ (if bool_decide (a_feed_id a ∈ debugFeedIDs m)
              then [queueing_line a] else []) ∧
  scheduleRuns (emit_pendingArticle r a m) = scheduleRuns m ∧
  runObjs (emit_pendingArticle r a m) = runObjs m ∧
  debugFeedIDs (emit_pendingArticle r a m) = debugFeedIDs m ∧
  scheduleRunCounts (emit_pendingArticle r a m) = scheduleRunCounts m.
Proof.
  intros Ho Hon. unfold emit_pendingArticle, _onPendingArticle.
  rewrite Ho, Hon. case_bool_decide; simpl; [done|]. by rewrite app_nil_r.
Qed.

(** X13. While a run has the manager's [pendingArticle] listener, every
    article it emits is re-emitted by the manager unchanged and in the order
    of emission; the manager logs one debug line for each article whose feed
    is in the debug set and none for the others, and changes neither the
    registry, the run objects nor the counters. *)
Theorem pending_articles_pass_through e m r o arts :
  runObjs m !! r = Some o → r_onPendingArticle o = true →
  emitted (exec e (EmitPendingArticle r <$> arts) m) = emitted m ++ arts ∧
  log (exec e (EmitPendingArticle r <$> arts) m)
  = log m ++ (queueing_line <$>
                List.filter (λ a, bool_decide (a_feed_id a ∈ debugFeedIDs m)) arts) ∧
  scheduleRuns (exec e (EmitPendingArticle r <$> arts) m) = scheduleRuns m ∧
  runObjs (exec e (EmitPendingArticle r <$> arts) m) = runObjs m ∧
  scheduleRunCounts (exec e (EmitPendingArticle r <$> arts) m) = scheduleRunCounts m.
Proof.
  intros Ho Hon. revert m Ho. induction arts as [|a arts IH]; intros m Ho.
  - simpl. by rewrite !app_nil_r.
  - change (exec e (EmitPendingArticle r <$> a :: arts) m)
      with (exec e (EmitPendingArticle r <$> arts) (emit_pendingArticle r a m)).
    destruct (emit_pendingArticle_subscribed r a m o Ho Hon)
      as (He & Hl & Hr & Hobjs & Hd & Hc).
    destruct (IH (emit_pendingArticle r a m)) as (-> & -> & -> & -> & ->).
    { by rewrite Hobjs. }
    rewrite He, Hl, Hr, Hobjs, Hd, Hc, <- !app_assoc. split_and!; try done.
    f_equal. cbn [List.filter]. by case_bool_decide.
Qed.

Lemma pending_articles_pass_through_witness :
  emitted (exec mongo1
    (EmitPendingArticle 0%nat <$> [mkPendingArticle "f1" "l1"; mkPendingArticle "f2" "l2"])
    (exec mongo1 [AddSchedule feeds; AddDebugFeedID "f2"; Run feeds] init))
  = [mkPendingArticle "f1" "l1"; mkPendingArticle "f2" "l2"].
Proof.
  refine (proj1 (pending_articles_pass_through mongo1
    (exec mongo1 [AddSchedule feeds; AddDebugFeedID "f2"; Run feeds] init) 0
    (dispatched feeds (addSchedule mongo1 feeds init)) _ _ _)).
  - vm_compute. reflexivity.
  - reflexivity.
Defined.

(** *** Every schedule has caches of its own *)

Section fresh_references.

Implicit Types t : gmap nat nat.

Lemma fresh_insert_inj t (k v b : nat) :
  (∀ k' o, t !! k' = Some o → (o < b)%nat) → (b ≤ v)%nat →
  (∀ k1 k2 o, t !! k1 = Some o → t !! k2 = Some o → k1 = k2) →
  ∀ k1 k2 o, <[k:=v]> t !! k1 = Some o → <[k:=v]> t !! k2 = Some o → k1 = k2.
Proof.
  intros Hb Hv Hinj k1 k2 o. rewrite !lookup_insert.
  destruct (decide (k = k1)) as [<-|], (decide (k = k2)) as [<-|]; intros H1 H2.
  - done.
  - injection H1 as <-. apply Hb in H2. lia.
  - injection H2 as <-. apply Hb in H1. lia.
  - by eapply Hinj.
Qed.

Lemma fresh_insert_apart_l t1 t2 (k v b : nat) :
  (∀ k' o, t2 !! k' = Some o → (o < b)%nat) → (b ≤ v)%nat →
  (∀ k1 k2 o, t1 !! k1 = Some o → t2 !! k2 ≠ Some o) →
  ∀ k1 k2 o, <[k:=v]> t1 !! k1 = Some o → t2 !! k2 ≠ Some o.
Proof.
  intros Hb Hv Hap k1 k2 o. rewrite lookup_insert.
  destruct (decide (k = k1)) as [<-|]; intros H1 H2.
  - injection H1 as <-. apply Hb in H2. lia.
  - by eapply Hap.
Qed.

Lemma fresh_insert_apart_r t1 t2 (k v b : nat) :
  (∀ k' o, t1 !! k' = Some o → (o < b)%nat) → (b ≤ v)%nat →
  (∀ k1 k2 o, t1 !! k1 = Some o → t2 !! k2 ≠ Some o) →
  ∀ k1 k2 o, t1 !! k1 = Some o → <[k:=v]> t2 !! k2 ≠ Some o.
Proof.
  intros Hb Hv Hap k1 k2 o H1. rewrite lookup_insert.
  destruct (decide (k = k2)) as [<-|]; intros H2.
  - injection H2 as <-. apply Hb in H1. lia.
  - by eapply Hap.
Qed.

Lemma insert_bound t (k v b : nat) :
  (∀ k' o, t !! k' = Some o → (o < b)%nat) → (v < S b)%nat →
  ∀ k' o, <[k:=v]> t !! k' = Some o → (o < S b)%nat.
Proof.
  intros Hb Hv k' o. rewrite lookup_insert.
  destruct (decide (k = k')) as [<-|]; intros H.
  - injection H as <-. done.
  - apply Hb in H. lia.
Qed.

End fresh_references.

Lemma addSchedule_isolated e s m : wf e m → isolated m → isolated (addSchedule e s m).
Proof.
  intros Hwf (Hh & Hm & Hhm).
  pose proof (wf_headers _ _ Hwf) as Bh. pose proof (wf_memory _ _ Hwf) as Bm.
  unfold isolated.
  rewrite addSchedule_headers, addSchedule_memoryCollections.
  destruct (isMongoDatabase e); split_and!.
  - eapply fresh_insert_inj; [apply Bh|lia|done].
  - eapply fresh_insert_inj; [apply Bm|lia|done].
  - eapply (fresh_insert_apart_l _ _ _ _ (S (length (objects m)))); [|lia|].
    + apply insert_bound; [apply Bm|lia].
    + eapply fresh_insert_apart_r; [apply Bh|lia|done].
  - eapply fresh_insert_inj; [apply Bh|lia|done].
  - done.
  - eapply fresh_insert_apart_l; [apply Bm|lia|done].
Qed.

Lemma addSchedules_isolated e l m :
  wf e m → isolated m → isolated (addSchedules e l m).
Proof.
  revert m. induction l as [|s l IH]; intros m Hwf Hi; [done|].
  apply IH; [by apply addSchedule_wf|by apply addSchedule_isolated].
Qed.

(** Only [addSchedule] and [addSchedules] write to the cache tables. *)
Lemma step_keeps_cache_tables e m o :
  match o with AddSchedule _ | AddSchedules _ => False | _ => True end →
  headers (step e m o) = headers m ∧
  memoryCollections (step e m o) = memoryCollections m.
Proof.
  destruct o; cbn [step]; intros Ho; try done.
  - by destruct (terminateScheduleRuns_frame s m) as [_ _ _ _ -> -> _ _ _ _].
  - by destruct (run_frame e s m) as [_ _ _ _ -> -> _ _ _ _].
  - by destruct (clearTimers_tables m) as [_ _ -> -> _ _ _].
  - by destruct (beginTimers_tables e m) as [_ _ -> -> _ _ _].
  - by destruct (timer_fires_frame e t m) as [_ _ _ _ -> -> _ _ _ _].
  - unfold emit_finish. destruct (runObjs m !! r) as [ob|]; [|done].
    by destruct (r_onceFinish ob).
  - split; passive_event.
  - split; passive_event.
  - split; passive_event.
Qed.

Lemma step_isolated e m o : wf e m → isolated m → isolated (step e m o).
Proof.
  intros Hwf Hi.
  assert (match o with AddSchedule _ | AddSchedules _ => False | _ => True end →
          isolated (step e m o)) as Hkeep.
  { intros Ho. destruct (step_keeps_cache_tables e m o Ho) as [Hh Hm].
    unfold isolated. by rewrite Hh, Hm. }
  destruct o; try (by apply Hkeep); cbn [step].
  - by apply addSchedule_isolated.
  - by apply addSchedules_isolated.
Qed.

(** X14. In every reachable state no cache object is shared: two schedules
    never have the same header cache or the same memory cache, and no object
    serves as header cache and as memory cache at once. *)
Theorem caches_are_not_shared e m :
  reachable e m →
  (∀ k1 k2 o, headers m !! k1 = Some o → headers m !! k2 = Some o → k1 = k2) ∧
  (∀ k1 k2 o, memoryCollections m !! k1 = Some o →
              memoryCollections m !! k2 = Some o → k1 = k2) ∧
  (∀ k1 k2 o, headers m !! k1 = Some o → memoryCollections m !! k2 ≠ Some o).
Proof.
  intros [ops ->].
  assert (∀ m0, wf e m0 → isolated m0 → isolated (exec e ops m0)) as Hexec.
  { induction ops as [|o ops IH]; intros m0 Hwf Hi; [done|].
    change (exec e (o :: ops) m0) with (exec e ops (step e m0 o)).
    apply IH; [by apply step_wf|by apply step_isolated]. }
  apply Hexec; [apply wf_init|]. split_and!; intros k1 k2 o H; simpl in H; by rewrite lookup_empty in H.
Qed.

Lemma caches_are_not_shared_witness :
  (∀ k1 k2 o,
     headers (exec mongo1 [AddSchedule feeds; AddSchedules [vip; feeds]] init) !! k1
     = Some o →
     headers (exec mongo1 [AddSchedule feeds; AddSchedules [vip; feeds]] init) !! k2
     = Some o → k1 = k2) ∧
  (∀ k1 k2 o,
     memoryCollections
       (exec mongo1 [AddSchedule feeds; AddSchedules [vip; feeds]] init) !! k1
     = Some o →
     memoryCollections
       (exec mongo1 [AddSchedule feeds; AddSchedules [vip; feeds]] init) !! k2
     = Some o → k1 = k2) ∧
  (∀ k1 k2 o,
     headers (exec mongo1 [AddSchedule feeds; AddSchedules [vip; feeds]] init) !! k1
     = Some o →
     memoryCollections
       (exec mongo1 [AddSchedule feeds; AddSchedules [vip; feeds]] init) !! k2
     ≠ Some o).
Proof.
  refine (caches_are_not_shared mongo1
    (exec mongo1 [AddSchedule feeds; AddSchedules [vip; feeds]] init) _).
  by eexists.
Defined.

(** *** Registering several schedules *)

Lemma addSchedules_snoc e l s m :
  addSchedules e (l ++ [s]) m = addSchedule e s (addSchedules e l m).
Proof. unfold addSchedules. by rewrite foldl_snoc. Qed.

(** X15. [addSchedules] registers the schedules of its list one after the
    other: [addSchedules] of a concatenation is [addSchedules] of the second
    part after [addSchedules] of the first, the schedule list grows by the
    whole list in order, and afterwards every schedule of the list has
    counter 0 and a header cache that is an allocated, empty object. *)
Theorem addSchedules_registers_all e l m :
  (∀ l1 l2, l = l1 ++ l2 →
            addSchedules e l m = addSchedules e l2 (addSchedules e l1 m)) ∧
  schedules (addSchedules e l m) = schedules m ++ l ∧
  (∀ s, s ∈ l →
        counts_get (scheduleRunCounts (addSchedules e l m)) s = VNumber 0 ∧
        ∃ h, headers (addSchedules e l m) !! s_ref s = Some h ∧
             objects (addSchedules e l m) !! h = Some ∅).
Proof.
  split_and!.
  - intros l1 l2 ->. unfold addSchedules. apply foldl_app.
  - induction l as [|x l IH] using rev_ind; [by rewrite app_nil_r|].
    by rewrite addSchedules_snoc, addSchedule_schedules, IH, app_assoc.
  - induction l as [|x l IH] using rev_ind; intros s Hs.
    { by apply not_elem_of_nil in Hs. }
    rewrite addSchedules_snoc. set (m1 := addSchedules e l m) in *.
    destruct (decide (s_ref x = s_ref s)) as [Heq|Hne].
    + split.
      * unfold counts_get.
        by rewrite addSchedule_scheduleRunCounts, <- Heq, lookup_insert_eq.
      * eexists. rewrite addSchedule_headers, <- Heq, lookup_insert_eq,
          addSchedule_objects.
        split; [done|]. rewrite lookup_app_r by lia.
        destruct (isMongoDatabase e).
        -- by replace (length (objects m1) + 1 - length (objects m1))%nat
             with 1%nat by lia.
        -- by replace (length (objects m1) + 0 - length (objects m1))%nat
             with 0%nat by lia.
    + assert (s ∈ l) as Hin.
      { apply elem_of_app in Hs as [?|Hx]; [done|].
        apply list_elem_of_singleton in Hx. by subst. }
      destruct (IH s Hin) as (Hc & h & Hh & Ho).
      assert (same_schedule x s = false) as Hdiff by (by apply bool_decide_eq_false).
      destruct (addSchedule_other e x s m1 Hdiff) as (Hc' & Hh' & _).
      split.
      * unfold counts_get in *. by rewrite Hc'.
      * exists h. rewrite Hh'. split; [done|].
        rewrite addSchedule_objects. by apply lookup_app_l_Some.
Qed.

Lemma addSchedules_registers_all_witness :
  counts_get (scheduleRunCounts (addSchedules files1 [feeds; vip; feeds] init)) vip
  = VNumber 0 ∧
  ∃ h, headers (addSchedules files1 [feeds; vip; feeds] init) !! s_ref vip = Some h ∧
       objects (addSchedules files1 [feeds; vip; feeds] init) !! h = Some ∅.
Proof.
  apply (proj2 (proj2 (addSchedules_registers_all files1 [feeds; vip; feeds] init)) vip).
  apply list_elem_of_In. simpl. tauto.
Defined.

(** *** The run count handed to a run *)

(** X16. The run count a new run is built with is the number of runs of its
    schedule that completed normally since the schedule was registered, as
    long as the schedule has not been registered again in between. *)
Theorem run_count_of_new_run e s m ops :
  Forall (λ o, adds s o = false) ops →
  ∃ o, runObjs (run e s (exec e ops (addSchedule e s m)))
         !! length (runObjs (exec e ops (addSchedule e s m))) = Some o ∧
       r_schedule o = s ∧
       r_runCount o = VNumber (Z.of_nat (completions e s (addSchedule e s m) ops)).
Proof.
  intros Hops. exists (dispatched s (exec e ops (addSchedule e s m))).
  split; [apply run_new|]. split; [done|]. simpl.
  rewrite (exec_counter e s ops _ 0); [done|done|].
  unfold counts_get. by rewrite addSchedule_scheduleRunCounts, lookup_insert_eq.
Qed.

Lemma run_count_of_new_run_witness :
  ∃ o, runObjs (run mongo2 feeds
                  (exec mongo2 [Run feeds; Run feeds; EmitFinish 1%nat; EmitFinish 0%nat]
                     (addSchedule mongo2 feeds init))) !! 2%nat = Some o ∧
       r_schedule o = feeds ∧ r_runCount o = VNumber 2.
Proof.
  refine (run_count_of_new_run mongo2 feeds init
            [Run feeds; Run feeds; EmitFinish 1%nat; EmitFinish 0%nat] _).
  repeat constructor.
Defined.

(** *** Dispatching one schedule and the runs of another *)

Lemma getRuns_run_other e s' s m :
  wf e m → same_schedule s' s = false →
  getRuns (run e s' m) s = getRuns m s.
Proof.
  intros Hwf Hs. rewrite (getRuns_run e s' s m Hwf), Hs, app_nil_r.
  rewrite (remediate_registry e s' m Hwf). destruct (atMaxRuns e m s'); [|done].
  rewrite bfilter_filter. apply List.filter_ext. intros x.
  destruct (run_of m s x) eqn:E; [|by rewrite andb_false_r].
  assert (same_schedule s s' = false) as Hs'.
  { apply bool_decide_eq_false. apply bool_decide_eq_false in Hs. congruence. }
  by rewrite (diff_schedule_run_of m s' s x Hs' E).
Qed.

(** X17. In a reachable state, dispatching a schedule leaves the runs of
    every other schedule alone, also when it terminates its own: their
    registry entries stay, in order, and their run objects are not
    touched. *)
Theorem run_leaves_other_schedules e m s' s :
  reachable e m → same_schedule s' s = false →
  getRuns (run e s' m) s = getRuns m s ∧
  ∀ r, r ∈ getRuns m s → runObjs (run e s' m) !! r = runObjs m !! r.
Proof.
  intros Hwf%reachable_wf Hs. split; [by apply getRuns_run_other|].
  intros r Hr. pose proof Hr as [Hin Hof]%getRuns_elem.
  apply (wf_registered _ _ Hwf) in Hin.
  destruct (remediate_frame e s' m) as (_ & _ & Hlen & _).
  rewrite run_runObjs, lookup_app_l by lia.
  destruct (atMaxRuns e m s') eqn:E.
  - destruct (remediate_at_capacity e s' m Hwf E) as (_ & _ & ->).
    rewrite bool_decide_eq_false_2; [done|].
    intros [_ Hof']%getRuns_elem.
    assert (same_schedule s s' = false) as Hs'.
    { apply bool_decide_eq_false. apply bool_decide_eq_false in Hs. congruence. }
    by rewrite (diff_schedule_run_of m s' s r Hs' Hof) in Hof'.
  - unfold remediate. by rewrite E.
Qed.

Lemma run_leaves_other_schedules_witness :
  getRuns (run mongo1 feeds
    (exec mongo1 [AddSchedule feeds; AddSchedule vip; Run feeds; Run vip] init)) vip
  = getRuns (exec mongo1 [AddSchedule feeds; AddSchedule vip; Run feeds; Run vip] init) vip.
Proof.
  refine (proj1 (run_leaves_other_schedules mongo1
    (exec mongo1 [AddSchedule feeds; AddSchedule vip; Run feeds; Run vip] init)
    feeds vip _ _)).
  - by eexists.
  - reflexivity.
Defined.

Lemma getRuns_run_same e s' s m :
  wf e m → same_schedule s' s = true → getRuns (run e s' m) s ≠ [].
Proof.
  intros Hwf Hs. rewrite (getRuns_run e s' s m Hwf), Hs.
  intros E. apply app_eq_nil in E as [_ E]. discriminate E.
Qed.

Lemma arms_start_all e ss m s :
  wf e m → s ∈ ss → getRuns (foldl (arm e) m ss) s ≠ [].
Proof.
  intros Hwf. induction ss as [|x ss IH] using rev_ind; intros Hs.
  { by apply not_elem_of_nil in Hs. }
  rewrite foldl_snoc, getRuns_arm.
  pose proof (arms_wf e ss m Hwf) as Hwf'.
  destruct (same_schedule x s) eqn:E.
  - by apply getRuns_run_same.
  - rewrite getRuns_run_other by done. apply IH.
    apply elem_of_app in Hs as [?|Hx]; [done|].
    apply list_elem_of_singleton in Hx. subst x.
    unfold same_schedule in E. by rewrite bool_decide_eq_true_2 in E.
Qed.

(** X18. In a reachable state, right after [beginTimers] every schedule of
    the schedule list has at least one registered run, whatever the
    configured bound. *)
Theorem beginTimers_starts_every_schedule e m s :
  reachable e m → s ∈ schedules m → getRuns (beginTimers e m) s ≠ [].
Proof.
  intros Hwf%reachable_wf Hs. rewrite beginTimers_eq.
  apply arms_start_all; [by apply clearTimers_wf|].
  by destruct (clearTimers_tables m) as [-> _ _ _ _ _ _].
Qed.

Lemma beginTimers_starts_every_schedule_witness :
  getRuns (beginTimers mongo1
    (exec mongo1 [AddSchedule feeds; AddSchedule vip] init)) vip ≠ [] ∧
  getRuns (beginTimers mongo1
    (exec mongo1 [AddSchedule feeds; AddSchedule vip] init)) feeds ≠ [].
Proof.
  split.
  - apply (beginTimers_starts_every_schedule mongo1).
    + by eexists.
    + apply list_elem_of_In. simpl. tauto.
  - apply (beginTimers_starts_every_schedule mongo1).
    + by eexists.
    + apply list_elem_of_In. simpl. tauto.
Defined.
